(* ===== verification/_CoqProject ===== *)
-Q . S2P
Prelude.v
Outcome.v
Word.v
Primitive.v
Memory.v
MemoryHelper.v
CArray.v
Container.v
Convert.v
Session.v
