(* ===== verification/Prelude.v ===== *)
(** * CyhCNI: a verified model of the native-interop marshalling layer

    The program ([src/cyh/cni.hpp], one C++ header, namespace [cyh::cni])
    converts between managed standard containers ([std::vector<T>],
    [std::string]) and flat unmanaged blocks that can cross a foreign-function
    boundary.  It has three parts:

    - [CNIMemoryHelper]: null-safe wrappers of the process allocator
      ([Free], [Allocate], [Reallocate], [ZeroMemory]).  [Allocate] turns
      a zero-sized request and every exception of [operator new] into a null
      pointer; [Reallocate] frees and then allocates, it never copies.
    - [CArray<T>]: a plain struct, a block pointer ([m_block], aliased as
      [m_data] by a union) and an element count ([m_length]), with [begin],
      [end] and [size].
    - [CNIConvert]: [to_primitive_c_array] (container to block, with an
      optional zero terminator), [to_std_container] (block to container) and
      the public entry points [ToCArray], [ToCNIString], [ToCppString].

    [CNIConvert] calls [CNIMemoryHelper::Allocate] for the block it returns
    and never frees it: the block belongs to whoever receives the [CArray],
    who passes it to [CNIMemoryHelper::Free] exactly once.

    ** Files, in dependency order

    - [Prelude] (this file): the libraries every file loads, the hint
      databases [cni], [seg] and [cni_rw], the tactics [len] and
      [case_branch], the list-segment operations [slice] and [splice] in
      which reads and writes of a memory block are expressed, and lemmas on
      maps that are related key by key.
    - [Outcome]: what running a piece of the program yields: a value and a
      new state ([Ok]), a C++ exception ([Throw]), or undefined behaviour
      ([Undef]).  The state monad [M] over it, [try_catch], an equivalence of
      computations with its [Proper] instances, and the predicates [returns]
      and [nothrow].
    - [Word]: [nuint] ([size_t]) as [Z] with its wrap-around written out,
      parameterised by the class [Arch] (the width of [size_t]: 64, 32 or 16
      bits), bytes, and little-endian object representations.
    - [Primitive]: the class [Primitive], which is the source's
      [concept PRIMITIVE] together with [sizeof(T)] and the object
      representation that [memcpy] moves; instances for [char] and for the
      unsigned and signed integers of 1, 2, 4 and 8 bytes; [encode] and
      [decode] of whole containers, with their round trip.
    - [Memory]: the unmanaged heap.  Pointers are [Null] or a block
      identifier with a byte offset; a block is a list of cells, a cell is a
      byte or indeterminate (fresh memory is indeterminate, so that a missing
      [memset] is visible).  [operator_new], [operator_delete], [memcpy_in],
      [memcpy_out] and [memset] with every condition under which C++ leaves
      their behaviour undefined; the invariant [heap_wf], the frame relation
      [extends] (a preorder), and the accounting of bytes ([live_bytes],
      [conserves]).
    - [MemoryHelper]: Module [CNIMemoryHelper], one definition per method
      ([Free], [Allocate], [Reallocate], [ZeroMemory]), and the theorems on
      them: the result on every branch, no exception, allocate-then-free
      round trip, [Reallocate] as free-then-allocate, [Allocate] followed by
      [ZeroMemory] without a test for null, and the wrap-around of the byte
      count of [ZeroMemory].
    - [CArray]: the struct as a record, [begin], [end_] and [size], the
      invariant [valid] that the specification states for a flat array, and
      the predicates [holds] (the block stores these elements) and
      [terminated], both stable under [extends]; [traverse], the loop of a
      range-based [for] over the struct, and the theorem that it ends after
      [size()] steps with the elements held.
    - [Container]: what the program calls of the standard containers:
      [std_size], [std_data], [max_size] and [resize] with its two
      exceptions; the class [Managed], the allocator behind the containers.
    - [Convert]: Module [CNIConvert], one definition per method, the abstract
      specification [converts] of a conversion, and the theorems: functional
      behaviour on every branch, refinement of [converts], the terminator,
      round trips, allocation failure, the frame, release without leaks, the
      exceptions that leave [ToCppString], and the behaviour when the size
      computation wraps.
    - [Session]: the caller's side of the boundary, which the repository
      does not contain and the specification describes: a labelled
      transition system [step] over the calls of the public interface with
      the blocks the caller owns as ghost state, the executable [do_call] and
      [run], the invariant of reachable sessions, that no permitted call goes
      wrong, and that everything owned can be released.  The ownership
      contract of the specification is the function [contract] on a
      [ledger] (blocks held, budget left, next handle), which never sees a
      byte of the heap; the theorem [do_call_refines_contract] shows that
      every permitted call of the program replies and moves the ledger as
      the contract computes.

    ** Modelling decisions

    - A managed container is a Rocq list; a pointer to a container that may
      be null ([const TContainer*]) is an [option].  Managed storage is not
      part of the unmanaged heap: whether the runtime grants the storage
      that [resize] asks for is the parameter [Managed], independent of the
      budget of the heap, and theorems that need a copy to be created say so
      with the hypothesis [granted].  A theorem that says that
      [to_std_container] leaves the heap unchanged speaks of the unmanaged
      blocks and their budget.  [data()] of an empty [std::vector] is
      taken to be null, the case the standard allows and [memcpy] does not.
    - A parameter of type [nuint] is a [Z]; the methods are defined on
      every [Z], and the theorems and the obligations of the caller state
      [is_nuint] where the range matters.  [m_length] is a [Z] for the same
      reason; [conversion_valid] shows that the arrays the program returns
      have a length in range.
    - [size_t] arithmetic wraps modulo [2 ^ size_bits].  Theorems that need
      products not to wrap assume [representable] (the container has at most
      [max_size()] elements), which the standard containers guarantee;
      [ToCArray_wraps] shows what happens without it.
    - [operator new] throws [bad_alloc] exactly when the request exceeds the
      heap's remaining budget [avail]; a budget of [0] forces every
      allocation to fail.  Block identifiers are never reused, so a stale
      pointer is detected and its use is [Undef], and a new block differs
      from every earlier one by construction.  Copying an indeterminate byte
      out of the heap is [Undef], which is stricter than [memcpy].
    - No function of the program loops or recurses: its definitions take
      no fuel, every one is a total function that [vm_compute] evaluates,
      and termination holds by construction ([decode] recurses on the
      element count, [run] on the list of calls).  The one loop is the
      caller's, over [begin()] and [end()]: [traverse] compares pointers
      for equality as the C++ loop does, so it takes fuel, and
      [traverse_terminates] shows that [size()] steps are enough.
    - Witnesses are stated on a 64-bit platform ([arch64]) with a managed
      side that grants everything ([plenty]), except where the theorem is
      about a narrow [size_t] or a refusing allocator.

    ** Not modelled

    Stream and type-trait headers that the source includes and never uses;
    the bytes of the struct [CArray] itself (a pointer, then a count), which
    only foreign callers observe; concurrency (the program has no shared
    state of its own); the capacity and small-buffer policies of the
    standard containers, which [Managed] abstracts. *)

From Stdlib Require Export ZArith Lia.
From stdpp Require Export base tactics decidable option numbers list gmap.

(** ** Hint databases and tactics *)

(** [cni] collects the lemmas that [auto] and [eauto] may use to discharge
    side conditions on heaps and blocks; [seg] is the rewrite database of
    length equations for segments. *)
Create HintDb cni discriminated.
Create Rewrite HintDb seg.
Create Rewrite HintDb cni_rw.

#[export] Hint Rewrite @length_app @length_take @length_drop @length_replicate
  @length_fmap @length_cons @length_nil : seg.

(** [len] settles a goal about lengths of lists built from the operations
    above. *)
Ltac len := autorewrite with seg in *; simpl in *; lia.

(** [case_branch] splits on the first [decide] that guards the goal, the way
    the program branches on it, and clears impossible branches. *)
Ltac case_branch := case_decide; simplify_eq /=; try lia; try done.

(** ** Segments of a list

    A block of memory is a list of cells.  Reading [n] cells at offset [i]
    is [slice i n]; writing the cells [k] at offset [i] is [splice i k].
    Both are total: the callers check bounds first. *)
Section segments.
Context {A : Type}.
Implicit Types (l k : list A) (i j n : nat).

Definition slice i n l : list A := take n (drop i l).

Definition splice i k l : list A := take i l ++ k ++ drop (i + length k) l.

Lemma length_slice i n l : i + n ≤ length l → length (slice i n l) = n.
Proof. intros. unfold slice. len. Qed.

Lemma length_splice i k l :
  i + length k ≤ length l → length (splice i k l) = length l.
Proof. intros. unfold splice. len. Qed.

Lemma slice_0_all l : slice 0 (length l) l = l.
Proof. unfold slice. by rewrite drop_0, firstn_all. Qed.

Lemma slice_app_l i n l k : i + n ≤ length l → slice i n (l ++ k) = slice i n l.
Proof.
  intros. unfold slice. rewrite drop_app, take_app, length_drop.
  replace (n - (length l - i)) with 0 by lia. by rewrite take_0, app_nil_r.
Qed.

Lemma slice_app_r n l k : slice (length l) n (l ++ k) = take n k.
Proof. unfold slice. by rewrite drop_app_length. Qed.

Lemma slice_splice i k l :
  i + length k ≤ length l → slice i (length k) (splice i k l) = k.
Proof.
  intros. unfold slice, splice.
  rewrite drop_app_length' by len. by rewrite take_app_length.
Qed.

Lemma splice_0_all k l : length k = length l → splice 0 k l = k.
Proof.
  intros Hl. unfold splice. rewrite take_0, Hl. simpl.
  by rewrite drop_all, app_nil_r.
Qed.

Lemma splice_app_r k l1 l2 :
  length k = length l2 → splice (length l1) k (l1 ++ l2) = l1 ++ k.
Proof.
  intros Hl. unfold splice. rewrite take_app_length, Hl.
  rewrite drop_ge by len. by rewrite app_nil_r.
Qed.

Lemma splice_nil i l : i ≤ length l → splice i [] l = l.
Proof. intros. unfold splice. simpl. rewrite Nat.add_0_r. apply take_drop. Qed.

Lemma slice_splice_before j n i k l :
  j + n ≤ i → i ≤ length l → slice j n (splice i k l) = slice j n l.
Proof.
  intros. unfold splice. rewrite slice_app_l by len.
  rewrite <- (take_drop i l) at 2. by rewrite slice_app_l by len.
Qed.

Lemma take_splice_prefix i k l : i ≤ length l → take i (splice i k l) = take i l.
Proof. intros. unfold splice. rewrite take_app_length'; [done|len]. Qed.

Lemma slice_app_r_add i n l k : slice (length l + i) n (l ++ k) = slice i n k.
Proof. unfold slice. by rewrite drop_app_add. Qed.

Lemma slice_take i n m l : i + n ≤ m → slice i n (take m l) = slice i n l.
Proof.
  intros. rewrite <- (take_drop m l) at 2. destruct (decide (m ≤ length l)).
  - by rewrite slice_app_l by len.
  - by rewrite take_ge, drop_ge, app_nil_r by lia.
Qed.

End segments.

Lemma slice_fmap {A B} (f : A → B) i n (l : list A) :
  slice i n (f <$> l) = f <$> slice i n l.
Proof. unfold slice. by rewrite fmap_take, fmap_drop. Qed.

#[export] Hint Rewrite @length_slice @length_splice using lia : seg.

(** ** Lists of optional values

    [mapM id] turns a list of cells into the list of their bytes when every
    cell holds one. *)
Section all_defined.
Context {A : Type}.
Implicit Types (cs : list (option A)) (l : list A).

Lemma mapM_id_Some l : mapM id (Some <$> l) = Some l.
Proof. by apply mapM_fmap_Some. Qed.

Lemma mapM_id_inv cs l : mapM id cs = Some l → cs = Some <$> l.
Proof.
  intros H. symmetry. eapply (mapM_fmap_Some_inv id Some); [done|].
  by intros ?? [= ->].
Qed.

Lemma mapM_id_None cs : None ∈ cs → mapM id cs = None.
Proof.
  intros Hin. destruct (mapM id cs) as [l|] eqn:E; [|done].
  apply mapM_id_inv in E. subst. by apply list_elem_of_fmap in Hin as (?&?&?).
Qed.

End all_defined.

#[export] Hint Rewrite @mapM_id_Some : cni_rw.

(** ** Maps related key by key

    [map_Forall2 R m1 m2] says that the two maps have the same keys and that
    the values at each key are related. *)
Section related_maps.
Context `{Countable K} {A B : Type} (R : K → A → B → Prop).
Implicit Types (ma : gmap K A) (mb : gmap K B).

Lemma map_Forall2_lookup_r ma mb i y :
  map_Forall2 R ma mb → mb !! i = Some y → ∃ x, ma !! i = Some x ∧ R i x y.
Proof. intros HR Hi. specialize (HR i). rewrite Hi in HR. inversion HR; eauto. Qed.

Lemma map_Forall2_lookup_l ma mb i x :
  map_Forall2 R ma mb → ma !! i = Some x → ∃ y, mb !! i = Some y ∧ R i x y.
Proof. intros HR Hi. specialize (HR i). rewrite Hi in HR. inversion HR; eauto. Qed.

Lemma map_Forall2_lookup_None ma mb i :
  map_Forall2 R ma mb → ma !! i = None → mb !! i = None.
Proof. intros HR Hi. specialize (HR i). rewrite Hi in HR. by inversion HR. Qed.

(** Replacing the value on the left by one that is still related. *)
Lemma map_Forall2_replace_l ma mb i x y :
  map_Forall2 R ma mb → mb !! i = Some y → R i x y →
  map_Forall2 R (<[i := x]> ma) mb.
Proof.
  intros HR Hi Hxy. rewrite <- (insert_id mb i y Hi).
  by apply map_Forall2_insert_2.
Qed.

End related_maps.
