(* ===== verification/Outcome.v ===== *)
(** * Outcome: results of running C++ code, and the monad that threads a state

    A call of the program either returns a value in a new state, leaves by a
    C++ exception (which also carries the state reached when it was thrown),
    or has undefined behaviour.  [M S A] is the type of computations over a
    state [S]; the notations [x ← m; k] and [m ≫= f] are stdpp's, through the
    instances [M_ret] and [M_bind].  [try_catch] is [try { } catch (...) { }].

    Computations are compared pointwise ([≡]); [mbind] and [try_catch] are
    [Proper] for it, so equivalences rewrite under binds. *)

From S2P Require Import Prelude.

(** The exceptions of the standard library that the modelled code can meet. *)
Inductive exn : Type := bad_alloc | length_error.

#[export] Instance exn_eq_dec : EqDecision exn.
Proof. solve_decision. Defined.

Inductive outcome (S A : Type) : Type :=
| Ok (a : A) (s : S)
| Throw (e : exn) (s : S)
| Undef.
Arguments Ok {S A} a s.
Arguments Throw {S A} e s.
Arguments Undef {S A}.

#[export] Instance outcome_eq_dec {S A} `{EqDecision S, EqDecision A} :
  EqDecision (outcome S A).
Proof. solve_decision. Defined.

Definition M (S A : Type) : Type := S → outcome S A.

Section monad.
Context {S : Type}.

#[export] Instance M_ret : MRet (M S) := λ A a s, Ok a s.

#[export] Instance M_bind : MBind (M S) := λ A B f m s,
  match m s with
  | Ok a s' => f a s'
  | Throw e s' => Throw e s'
  | Undef => Undef
  end.

Definition throw {A} (e : exn) : M S A := λ s, Throw e s.

Definition undefined {A} : M S A := λ _, Undef.

(** [try { m } catch (...) { h }]: the handler runs in the state the
    exception left; undefined behaviour is not caught. *)
Definition try_catch {A} (m : M S A) (h : exn → M S A) : M S A := λ s,
  match m s with
  | Throw e s' => h e s'
  | o => o
  end.

(** [if (c) { m }] for a statement [m]. *)
Definition when (c : bool) (m : M S ()) : M S () := if c then m else mret ().

(** Pointwise equality of computations. *)
#[export] Instance M_equiv {A} : Equiv (M S A) := λ m1 m2, ∀ s, m1 s = m2 s.

#[export] Instance M_equivalence {A} : Equivalence (≡@{M S A}).
Proof.
  split; [by intros m s|by intros m1 m2 H s|].
  intros m1 m2 m3 H1 H2 s. by rewrite H1.
Qed.

#[export] Instance mbind_proper {A B} :
  Proper (pointwise_relation A (≡) ==> (≡) ==> (≡@{M S B})) mbind.
Proof.
  intros f g Hfg m1 m2 Hm s. unfold mbind, M_bind. rewrite Hm.
  destruct (m2 s); [apply Hfg|done..].
Qed.

#[export] Instance try_catch_proper {A} :
  Proper ((≡) ==> pointwise_relation exn (≡) ==> (≡@{M S A})) try_catch.
Proof.
  intros m1 m2 Hm h1 h2 Hh s. unfold try_catch. rewrite Hm.
  destruct (m2 s); [done|apply Hh|done].
Qed.

(** ** Monad laws *)

Lemma M_left_id {A B} (a : A) (f : A → M S B) : mret a ≫= f ≡ f a.
Proof. by intros s. Qed.

Lemma M_right_id {A} (m : M S A) : m ≫= mret ≡ m.
Proof. intros s. unfold mbind, M_bind. by destruct (m s). Qed.

Lemma M_assoc {A B C} (m : M S A) (f : A → M S B) (g : B → M S C) :
  (m ≫= f) ≫= g ≡ m ≫= (λ a, f a ≫= g).
Proof. intros s. unfold mbind, M_bind. by destruct (m s). Qed.

(** ** Running a bind *)

Lemma bind_Ok {A B} (m : M S A) (f : A → M S B) s a s' :
  m s = Ok a s' → (m ≫= f) s = f a s'.
Proof. unfold mbind, M_bind. by intros ->. Qed.

Lemma bind_Throw {A B} (m : M S A) (f : A → M S B) s e s' :
  m s = Throw e s' → (m ≫= f) s = Throw e s'.
Proof. unfold mbind, M_bind. by intros ->. Qed.

Lemma bind_Undef {A B} (m : M S A) (f : A → M S B) s :
  m s = Undef → (m ≫= f) s = Undef.
Proof. unfold mbind, M_bind. by intros ->. Qed.

Lemma bind_Ok_inv {A B} (m : M S A) (f : A → M S B) s b s'' :
  (m ≫= f) s = Ok b s'' → ∃ a s', m s = Ok a s' ∧ f a s' = Ok b s''.
Proof. unfold mbind, M_bind. destruct (m s); naive_solver. Qed.

Lemma try_catch_Ok {A} (m : M S A) h s a s' :
  m s = Ok a s' → try_catch m h s = Ok a s'.
Proof. unfold try_catch. by intros ->. Qed.

Lemma try_catch_Throw {A} (m : M S A) h s e s' :
  m s = Throw e s' → try_catch m h s = h e s'.
Proof. unfold try_catch. by intros ->. Qed.

(** ** Total correctness

    [returns m s] holds when running [m] from [s] yields a value: no
    exception leaves [m] and its behaviour is defined.  [nothrow m s] is the
    weaker guarantee of a [noexcept] function. *)
Definition returns {A} (m : M S A) (s : S) : Prop :=
  ∃ a s', m s = Ok a s'.

Definition nothrow {A} (m : M S A) (s : S) : Prop :=
  ∀ e s', m s ≠ Throw e s'.

Lemma returns_nothrow {A} (m : M S A) s : returns m s → nothrow m s.
Proof. intros (a & s' & H) e s''. by rewrite H. Qed.

Lemma returns_bind {A B} (m : M S A) (f : A → M S B) s :
  returns m s → (∀ a s', m s = Ok a s' → returns (f a) s') →
  returns (m ≫= f) s.
Proof.
  intros (a & s' & Hm) Hf. destruct (Hf a s' Hm) as (b & s'' & Hb).
  exists b, s''. by rewrite (bind_Ok m f s a s' Hm).
Qed.

Lemma try_catch_nothrow {A} (m : M S A) h s :
  (∀ e s', nothrow (h e) s') → nothrow (try_catch m h) s.
Proof.
  intros Hh e s'. unfold try_catch. destruct (m s) eqn:E; [done|apply Hh|done].
Qed.

End monad.

#[export] Hint Resolve returns_nothrow : cni.

(** [run_M] unfolds one layer of the monad in the goal. *)
Ltac run_M := unfold mbind, M_bind, mret, M_ret, try_catch, throw, undefined, when.
