(* ===== verification/Word.v ===== *)
(** * Word: machine integers and bytes

    [nuint] is [size_t] and [nint] its signed counterpart
    ([src/cyh/cni.hpp], lines 7 and 8).  A value of either type is a [Z];
    the operations reduce their result the way the machine does.  The width
    of [size_t] is a parameter of the platform, the class [Arch]; the
    instances are the data models in which the program is compiled.

    Bytes are [Byte.byte]; [le_split] and [le_combine] give the
    little-endian object representation of an unsigned integer, by
    arithmetic, with the round trips between the two. *)

From Stdlib Require Import Strings.Byte.
From S2P Require Import Prelude.
#[local] Open Scope Z_scope.

(** ** The width of [size_t] *)

Class Arch : Type := {
  size_bits : Z;
  size_bits_pos : 0 < size_bits
}.

(** 64-bit platforms (LP64, LLP64). *)
Definition arch64 : Arch := {| size_bits := 64; size_bits_pos := eq_refl |}.
(** 32-bit platforms (ILP32). *)
Definition arch32 : Arch := {| size_bits := 32; size_bits_pos := eq_refl |}.
(** The narrowest [size_t] that the C++ standard admits. *)
Definition arch16 : Arch := {| size_bits := 16; size_bits_pos := eq_refl |}.

Section nuint.
Context {arch : Arch}.
Implicit Types a b z : Z.

(** [SIZE_MAX + 1]. *)
Definition nuint_modulus : Z := 2 ^ size_bits.

(** Conversion to [nuint]: reduction modulo [2 ^ size_bits]. *)
Definition nuint (z : Z) : Z := z mod nuint_modulus.

(** Conversion to [nint], [std::make_signed_t<nuint>]: two's complement. *)
Definition nint (z : Z) : Z :=
  (z + nuint_modulus / 2) mod nuint_modulus - nuint_modulus / 2.

(** Addition and multiplication of two [nuint]. *)
Definition nuint_add a b : Z := nuint (a + b).
Definition nuint_mul a b : Z := nuint (a * b).

(** The values of type [nuint]. *)
Definition is_nuint z : Prop := 0 ≤ z < nuint_modulus.

#[export] Instance is_nuint_dec z : Decision (is_nuint z).
Proof. unfold is_nuint. apply _. Defined.

Lemma nuint_modulus_pos : 0 < nuint_modulus.
Proof. apply Z.pow_pos_nonneg; [done|]. pose proof size_bits_pos. lia. Qed.

Lemma nuint_modulus_ge_2 : 2 ≤ nuint_modulus.
Proof.
  unfold nuint_modulus. pose proof size_bits_pos.
  change 2 with (2 ^ 1) at 1. apply Z.pow_le_mono_r; lia.
Qed.

Lemma nuint_modulus_even : nuint_modulus = 2 * (nuint_modulus / 2).
Proof.
  unfold nuint_modulus. pose proof size_bits_pos.
  replace size_bits with (1 + (size_bits - 1)) by lia.
  rewrite Z.pow_add_r, Z.pow_1_r by lia.
  by rewrite (Z.mul_comm 2), Z.div_mul, Z.mul_comm by lia.
Qed.

Lemma nuint_is_nuint z : is_nuint (nuint z).
Proof. apply Z.mod_pos_bound, nuint_modulus_pos. Qed.

Lemma nuint_small z : is_nuint z → nuint z = z.
Proof. apply Z.mod_small. Qed.

Lemma nuint_idemp z : nuint (nuint z) = nuint z.
Proof. apply nuint_small, nuint_is_nuint. Qed.

Lemma nuint_le z : 0 ≤ z → nuint z ≤ z.
Proof. intros. apply Z.mod_le; [done|apply nuint_modulus_pos]. Qed.

Lemma nuint_add_nowrap a b : is_nuint (a + b) → nuint_add a b = a + b.
Proof. apply nuint_small. Qed.

Lemma nuint_mul_nowrap a b : is_nuint (a * b) → nuint_mul a b = a * b.
Proof. apply nuint_small. Qed.

Lemma nuint_mul_comm a b : nuint_mul a b = nuint_mul b a.
Proof. unfold nuint_mul. by rewrite Z.mul_comm. Qed.

Lemma nuint_mul_0_r a : nuint_mul a 0 = 0.
Proof. unfold nuint_mul. rewrite Z.mul_0_r. apply Z.mod_0_l. pose proof nuint_modulus_pos. lia. Qed.

Lemma nuint_mul_1_l a : is_nuint a → nuint_mul 1 a = a.
Proof. intros. unfold nuint_mul. rewrite Z.mul_1_l. by apply nuint_small. Qed.

(** The largest value wraps to zero when one is added: [SIZE_MAX + 1 == 0]. *)
Lemma nuint_add_max : nuint_add (nuint_modulus - 1) 1 = 0.
Proof.
  unfold nuint_add, nuint. replace (nuint_modulus - 1 + 1) with nuint_modulus by lia.
  apply Z_mod_same_full.
Qed.

Lemma nint_range z : - (nuint_modulus / 2) ≤ nint z < nuint_modulus / 2.
Proof.
  unfold nint. pose proof (Z.mod_pos_bound (z + nuint_modulus / 2) _ nuint_modulus_pos).
  pose proof nuint_modulus_even. lia.
Qed.

Lemma nint_small z :
  - (nuint_modulus / 2) ≤ z < nuint_modulus / 2 → nint z = z.
Proof.
  intros. unfold nint. pose proof nuint_modulus_even.
  rewrite Z.mod_small; lia.
Qed.

(** A [nuint] and its reinterpretation as [nint] agree modulo [2 ^ size_bits]. *)
Lemma nuint_nint z : nuint (nint z) = nuint z.
Proof.
  unfold nuint, nint. pose proof nuint_modulus_pos.
  rewrite Zminus_mod, Zmod_mod, <- Zminus_mod. f_equal. lia.
Qed.

End nuint.

#[export] Hint Resolve nuint_is_nuint : cni.
#[export] Hint Rewrite @nuint_idemp : cni_rw.

(** ** Bytes *)

#[export] Instance byte_eq_dec : EqDecision byte := Byte.byte_eq_dec.

Definition byte_to_Z (b : byte) : Z := Z.of_N (Byte.to_N b).

Definition byte_of_Z (z : Z) : byte :=
  default x00 (Byte.of_N (Z.to_N (z mod 256))).

Definition is_byte (z : Z) : Prop := 0 ≤ z < 256.

Lemma byte_to_Z_range b : is_byte (byte_to_Z b).
Proof. unfold is_byte, byte_to_Z. pose proof (Byte.to_N_bounded b). lia. Qed.

Lemma byte_of_to_Z b : byte_of_Z (byte_to_Z b) = b.
Proof.
  unfold byte_of_Z. rewrite Z.mod_small by apply byte_to_Z_range.
  unfold byte_to_Z. by rewrite N2Z.id, Byte.of_to_N.
Qed.

Lemma byte_to_of_Z z : byte_to_Z (byte_of_Z z) = z mod 256.
Proof.
  unfold byte_of_Z, byte_to_Z. pose proof (Z.mod_pos_bound z 256 eq_refl).
  destruct (Byte.of_N (Z.to_N (z mod 256))) as [b|] eqn:E; simpl.
  - apply Byte.to_of_N in E. rewrite E. lia.
  - apply Byte.of_N_None_iff in E. lia.
Qed.

Lemma byte_to_Z_inj b1 b2 : byte_to_Z b1 = byte_to_Z b2 → b1 = b2.
Proof. intros H. by rewrite <- (byte_of_to_Z b1), H, byte_of_to_Z. Qed.

Lemma byte_of_Z_0 : byte_of_Z 0 = x00.
Proof. reflexivity. Qed.

(** ** Little-endian object representations *)

Fixpoint le_split (n : nat) (z : Z) : list byte :=
  match n with
  | O => []
  | S n => byte_of_Z z :: le_split n (z / 256)
  end.

Fixpoint le_combine (bs : list byte) : Z :=
  match bs with
  | [] => 0
  | b :: bs => byte_to_Z b + 256 * le_combine bs
  end.

Lemma length_le_split n z : length (le_split n z) = n.
Proof. revert z. induction n; simpl; auto. Qed.

Lemma le_combine_range bs : 0 ≤ le_combine bs < 2 ^ (8 * Z.of_nat (length bs)).
Proof.
  induction bs as [|b bs IH]; [done|].
  cbn [le_combine length]. pose proof (byte_to_Z_range b) as Hb. unfold is_byte in Hb.
  replace (8 * Z.of_nat (S (length bs))) with (8 + 8 * Z.of_nat (length bs)) by lia.
  rewrite Z.pow_add_r by lia. change (2 ^ 8) with 256. lia.
Qed.

Lemma le_combine_split n z : le_combine (le_split n z) = z mod 2 ^ (8 * Z.of_nat n).
Proof.
  revert z. induction n as [|n IH]; intros z.
  - simpl. by rewrite Z.mod_1_r.
  - cbn [le_split le_combine]. rewrite IH, byte_to_of_Z.
    replace (8 * Z.of_nat (S n)) with (8 + 8 * Z.of_nat n) by lia.
    rewrite Z.pow_add_r by lia. change (2 ^ 8) with 256.
    rewrite Z.rem_mul_r; [done|lia|]. apply Z.pow_pos_nonneg; lia.
Qed.

Lemma le_split_combine bs : le_split (length bs) (le_combine bs) = bs.
Proof.
  induction bs as [|b bs IH]; [done|].
  cbn [length le_split le_combine]. pose proof (byte_to_Z_range b) as Hb.
  unfold is_byte in Hb. f_equal.
  - apply byte_to_Z_inj. rewrite byte_to_of_Z.
    rewrite (Z.mul_comm 256), Z.mod_add by lia. by apply Z.mod_small.
  - rewrite (Z.mul_comm 256), Z.div_add by lia.
    by rewrite Z.div_small, Z.add_0_l.
Qed.

(** The representation of zero is all-zero bytes, which is what [memset]
    with [0] writes and what value-initialisation yields. *)
Lemma le_split_0 n : le_split n 0 = replicate n x00.
Proof.
  induction n as [|n IH]; [done|]. cbn [le_split replicate].
  change (0 / 256) with 0. by rewrite IH.
Qed.

Lemma le_combine_replicate_0 n : le_combine (replicate n x00) = 0.
Proof. induction n as [|n IH]; [done|]. cbn [le_combine replicate]. rewrite IH. done. Qed.

#[export] Hint Rewrite length_le_split : seg.
#[export] Hint Rewrite byte_of_to_Z byte_to_of_Z le_split_combine : cni_rw.
