(* ===== verification/Primitive.v ===== *)
(** * Primitive: element types and their object representation

    The source restricts element types by [concept PRIMITIVE]
    ([src/cyh/cni.hpp], lines 10 to 12: any type that is not a class) and
    then treats a container of them as raw bytes: it multiplies by
    [sizeof(T)] and moves the bytes with [memcpy].  The class [Primitive]
    is that interface: the size of the type, the bytes of a value, the value
    of a sequence of bytes, and the value-initialised element [T{}] that
    [resize] creates.  Its laws are what [memcpy] relies on: a value has
    exactly [sizeof] bytes, and reading back the bytes of a value gives the
    value.

    The theorems on conversion are proved for every instance of the class;
    the instances below are [char] and the unsigned and signed integers of
    1, 2, 4 and 8 bytes in little-endian, two's complement
    representation. *)

From Stdlib Require Import Strings.Byte.
From S2P Require Import Prelude Word.
#[local] Open Scope Z_scope.

Class Primitive (T : Type) : Type := {
  sizeof : Z;
  to_bytes : T → list byte;
  of_bytes : list byte → T;
  zero_value : T;
  sizeof_pos : 0 < sizeof;
  length_to_bytes x : Z.of_nat (length (to_bytes x)) = sizeof;
  of_to_bytes x : of_bytes (to_bytes x) = x;
  to_bytes_zero : to_bytes zero_value = replicate (Z.to_nat sizeof) x00
}.
Arguments sizeof T {_}.
Arguments zero_value T {_}.

(** ** Whole containers *)
Section containers.
Context {T : Type} `{Primitive T}.
Implicit Types (l : list T) (bs : list byte).

(** The bytes of the elements of a container, in order: what [data()]
    points to. *)
Definition encode l : list byte := l ≫= to_bytes.

(** The [n] elements that a sequence of bytes holds. *)
Fixpoint decode (n : nat) bs : list T :=
  match n with
  | O => []
  | S n => of_bytes (take (Z.to_nat (sizeof T)) bs)
           :: decode n (drop (Z.to_nat (sizeof T)) bs)
  end.

Lemma length_to_bytes_nat (x : T) : length (to_bytes x) = Z.to_nat (sizeof T).
Proof. pose proof (length_to_bytes x). lia. Qed.

Lemma encode_cons x l : encode (x :: l) = to_bytes x ++ encode l.
Proof. done. Qed.

Lemma encode_app l1 l2 : encode (l1 ++ l2) = encode l1 ++ encode l2.
Proof. apply bind_app. Qed.

Lemma length_encode l :
  Z.of_nat (length (encode l)) = sizeof T * Z.of_nat (length l).
Proof.
  induction l as [|x l IH]; [simpl; lia|].
  rewrite encode_cons, length_app, Nat2Z.inj_add, IH, length_to_bytes. simpl. lia.
Qed.

Lemma length_encode_nat l :
  length (encode l) = (Z.to_nat (sizeof T) * length l)%nat.
Proof. pose proof (length_encode l). pose proof sizeof_pos. nia. Qed.

Lemma length_decode n bs : length (decode n bs) = n.
Proof. revert bs. induction n; simpl; auto. Qed.

(** Decoding reads exactly [n] elements: what follows them, such as a
    terminator, is not part of the result. *)
Lemma decode_encode_app l bs : decode (length l) (encode l ++ bs) = l.
Proof.
  induction l as [|x l IH]; [done|].
  cbn [length decode]. rewrite encode_cons, <- app_assoc.
  rewrite take_app_length', drop_app_length' by (symmetry; apply length_to_bytes_nat).
  by rewrite of_to_bytes, IH.
Qed.

Lemma decode_encode l : decode (length l) (encode l) = l.
Proof. rewrite <- (app_nil_r (encode l)). apply decode_encode_app. Qed.

(** Value-initialised elements are all-zero bytes. *)
(** The bytes of the element at index [i] of a container. *)
Lemma slice_encode l i x :
  l !! i = Some x →
  slice (i * Z.to_nat (sizeof T)) (Z.to_nat (sizeof T)) (encode l) = to_bytes x.
Proof.
  revert i. induction l as [|y l IH]; intros i Hi; [by destruct i|].
  rewrite encode_cons, <- (length_to_bytes_nat y). destruct i; simplify_eq /=.
  - rewrite (slice_app_l 0) by lia. apply slice_0_all.
  - rewrite slice_app_r_add, (length_to_bytes_nat y). by apply IH.
Qed.

Lemma encode_replicate_zero n :
  encode (replicate n (zero_value T)) =
  replicate (Z.to_nat (sizeof T) * n) x00.
Proof.
  induction n as [|n IH]; [by rewrite Nat.mul_0_r|].
  cbn [replicate]. rewrite encode_cons, IH, to_bytes_zero, <- replicate_add.
  f_equal. lia.
Qed.

Lemma encode_inj l1 l2 :
  length l1 = length l2 → encode l1 = encode l2 → l1 = l2.
Proof.
  intros Hlen Henc. rewrite <- (decode_encode l1), <- (decode_encode l2).
  by rewrite Hlen, Henc.
Qed.

End containers.

#[export] Hint Rewrite @length_decode : seg.
#[export] Hint Rewrite @decode_encode @decode_encode_app : cni_rw.

(** ** [char] *)

#[export, refine] Instance char_primitive : Primitive byte := {|
  sizeof := 1;
  to_bytes b := [b];
  of_bytes bs := default x00 (head bs);
  zero_value := x00
|}.
Proof. all: done. Defined.

(** ** Unsigned integers of [n] bytes *)

Definition uint_modulus (n : nat) : Z := 2 ^ (8 * Z.of_nat n).

Definition uint (n : nat) : Type := dsig (λ z : Z, 0 ≤ z < uint_modulus n).

Lemma uint_modulus_pos n : 0 < uint_modulus n.
Proof. apply Z.pow_pos_nonneg; lia. Qed.

(** Conversion of an integer to [uint n], as a cast does it. *)
Definition uint_of_Z (n : nat) (z : Z) : uint n :=
  dexist (z mod uint_modulus n) (Z.mod_pos_bound z _ (uint_modulus_pos n)).

Definition uint_to_Z {n : nat} (x : uint n) : Z := `x.

Lemma uint_to_Z_range {n} (x : uint n) : 0 ≤ uint_to_Z x < uint_modulus n.
Proof. apply (proj2_dsig x). Qed.

Lemma uint_to_of_Z n z : uint_to_Z (uint_of_Z n z) = z mod uint_modulus n.
Proof. done. Qed.

Lemma uint_of_to_Z {n} (x : uint n) : uint_of_Z n (uint_to_Z x) = x.
Proof. apply dsig_eq. simpl. apply Z.mod_small, uint_to_Z_range. Qed.

Lemma uint_eq {n} (x y : uint n) : uint_to_Z x = uint_to_Z y → x = y.
Proof. apply dsig_eq. Qed.

#[export, refine] Instance uint_primitive (n : nat) : Primitive (uint (S n)) := {|
  sizeof := Z.of_nat (S n);
  to_bytes x := le_split (S n) (uint_to_Z x);
  of_bytes bs := uint_of_Z (S n) (le_combine (take (S n) bs));
  zero_value := uint_of_Z (S n) 0
|}.
Proof.
  - lia.
  - intros x. by rewrite length_le_split.
  - intros x. apply uint_eq. rewrite uint_to_of_Z.
    rewrite take_ge by (rewrite length_le_split; lia).
    rewrite le_combine_split. unfold uint_modulus.
    rewrite Z.mod_mod by (apply Z.pow_nonzero; lia).
    apply Z.mod_small, uint_to_Z_range.
  - rewrite Nat2Z.id, uint_to_of_Z, Z.mod_0_l by (apply Z.pow_nonzero; lia).
    apply le_split_0.
Defined.

Definition uint8_t : Type := uint 1.
Definition uint16_t : Type := uint 2.
Definition uint32_t : Type := uint 4.
Definition uint64_t : Type := uint 8.

(** The representation of an integer is the one the platform lays out:
    least significant byte first. *)
Lemma to_bytes_uint16 (z : Z) :
  to_bytes (uint_of_Z 2 z) = [byte_of_Z z; byte_of_Z (z / 256)].
Proof.
  cbn [to_bytes uint_primitive]. rewrite uint_to_of_Z.
  cbn [le_split]. f_equal; [|f_equal]; apply byte_to_Z_inj;
    rewrite !byte_to_of_Z; change (uint_modulus 2) with (256 * 256).
  - rewrite Z.rem_mul_r by lia. by rewrite (Z.mul_comm 256), Z.mod_add by lia; rewrite Z.mod_mod.
  - rewrite Z.rem_mul_r by lia.
    rewrite (Z.mul_comm 256), Z.div_add by lia.
    rewrite (Z.div_small (z mod 256)) by (apply Z.mod_pos_bound; lia).
    by rewrite Z.add_0_l, Z.mod_mod.
Qed.

(** ** Signed integers of [n] bytes, in two's complement *)

Definition sint (n : nat) : Type :=
  dsig (λ z : Z, - (uint_modulus n / 2) ≤ z < uint_modulus n / 2).

Lemma uint_modulus_even n : uint_modulus (S n) = 2 * (uint_modulus (S n) / 2).
Proof.
  unfold uint_modulus.
  replace (8 * Z.of_nat (S n)) with (1 + (8 * Z.of_nat (S n) - 1)) by lia.
  rewrite Z.pow_add_r, Z.pow_1_r by lia.
  set (k := 2 ^ (8 * Z.of_nat (S n) - 1)).
  replace (2 * k / 2) with k; [done|]. symmetry.
  rewrite Z.mul_comm. by apply Z.div_mul.
Qed.

(** The integer of the signed range that is congruent to [z]. *)
Definition sint_wrap (n : nat) (z : Z) : Z :=
  (z + uint_modulus n / 2) mod uint_modulus n - uint_modulus n / 2.

Lemma sint_wrap_range n z :
  - (uint_modulus (S n) / 2) ≤ sint_wrap (S n) z < uint_modulus (S n) / 2.
Proof.
  unfold sint_wrap. pose proof (uint_modulus_even n).
  pose proof (Z.mod_pos_bound (z + uint_modulus (S n) / 2) _ (uint_modulus_pos (S n))).
  lia.
Qed.

Lemma sint_wrap_small n z :
  - (uint_modulus n / 2) ≤ z < uint_modulus n / 2 → n ≠ O → sint_wrap n z = z.
Proof.
  intros Hz Hn. destruct n as [|n]; [done|]. unfold sint_wrap.
  pose proof (uint_modulus_even n). rewrite Z.mod_small by lia. lia.
Qed.

Lemma sint_wrap_mod n z : sint_wrap n (z mod uint_modulus n) = sint_wrap n z.
Proof. unfold sint_wrap. by rewrite Zplus_mod_idemp_l. Qed.

(** Conversion of an integer to [sint (S n)], as a cast does it. *)
Definition sint_of_Z (n : nat) (z : Z) : sint (S n) :=
  dexist (sint_wrap (S n) z) (sint_wrap_range n z).

Definition sint_to_Z {n : nat} (x : sint n) : Z := `x.

Lemma sint_to_Z_range {n} (x : sint n) :
  - (uint_modulus n / 2) ≤ sint_to_Z x < uint_modulus n / 2.
Proof. apply (proj2_dsig x). Qed.

Lemma sint_eq {n} (x y : sint n) : sint_to_Z x = sint_to_Z y → x = y.
Proof. apply dsig_eq. Qed.

#[export, refine] Instance sint_primitive (n : nat) : Primitive (sint (S n)) := {|
  sizeof := Z.of_nat (S n);
  to_bytes x := le_split (S n) (sint_to_Z x);
  of_bytes bs := sint_of_Z n (le_combine (take (S n) bs));
  zero_value := sint_of_Z n 0
|}.
Proof.
  - lia.
  - intros x. by rewrite length_le_split.
  - intros x. apply sint_eq. cbn [sint_to_Z sint_of_Z proj1_sig dexist].
    rewrite take_ge by (rewrite length_le_split; lia).
    rewrite le_combine_split. fold (uint_modulus (S n)).
    rewrite sint_wrap_mod. apply sint_wrap_small; [apply sint_to_Z_range|done].
  - rewrite Nat2Z.id. cbn [sint_to_Z sint_of_Z proj1_sig dexist].
    rewrite sint_wrap_small; [apply le_split_0| |done].
    pose proof (uint_modulus_pos (S n)). pose proof (uint_modulus_even n). lia.
Defined.

Definition int8_t : Type := sint 1.
Definition int16_t : Type := sint 2.
Definition int32_t : Type := sint 4.
Definition int64_t : Type := sint 8.

(** A negative value is laid out in two's complement. *)
Lemma to_bytes_int16_minus_2 : to_bytes (sint_of_Z 1 (-2)) = [xfe; xff].
Proof. reflexivity. Qed.
