(* ===== verification/Memory.v ===== *)
(** * Memory: the unmanaged heap and the primitives the program calls on it

    The program reaches memory only through [operator new] and
    [operator delete] ([CNIMemoryHelper::Allocate] and [Free]), [memcpy]
    ([CNIConvert]) and [memset] ([ZeroMemory], and the terminator).  This
    file gives each of them a total, executable definition that ends in
    [Undef] exactly where C++ leaves the behaviour undefined: a null or
    stale pointer, an access outside the block, a pointer into the middle of
    a block handed to [operator delete], a second release.

    A pointer ([void*] or [T*]: the model does not distinguish them, as the
    union in [CArray] does not) is [Null] or a block identifier and a byte
    offset.  A block is a list of cells; a cell is [Some b] for a byte or
    [None] while its value is indeterminate, which is the state of memory
    that [operator new] returns.  Identifiers are never reused.  [avail] is
    the number of bytes the allocator can still hand out; [conserves] says
    that it and the bytes of the live blocks add up to the initial budget. *)

From Stdlib Require Import Strings.Byte.
From S2P Require Import Prelude Outcome Word.
#[local] Open Scope Z_scope.

(** ** Pointers *)

Inductive ptr : Type :=
| Null
| Ptr (b : positive) (ofs : Z).

#[export] Instance ptr_eq_dec : EqDecision ptr.
Proof. solve_decision. Defined.

(** [p + d] on a byte pointer.  Adding to the null pointer is only defined
    for [d = 0] in C++; the program never does it for another [d], and the
    model leaves the null pointer unchanged. *)
Definition ptr_add (p : ptr) (d : Z) : ptr :=
  match p with
  | Null => Null
  | Ptr b o => Ptr b (o + d)
  end.

Lemma ptr_add_0 p : ptr_add p 0 = p.
Proof. destruct p; simpl; f_equal; lia. Qed.

Lemma ptr_add_add p d1 d2 : ptr_add (ptr_add p d1) d2 = ptr_add p (d1 + d2).
Proof. destruct p; simpl; f_equal; lia. Qed.

(** ** The heap *)

Definition cell : Type := option byte.

Record heap : Type := Heap {
  blocks : gmap positive (list cell);
  next_block : positive;
  avail : Z
}.

#[export] Instance heap_eq_dec : EqDecision heap.
Proof. solve_decision. Defined.

(** A process that has allocated nothing and may allocate [budget] bytes. *)
Definition empty_heap (budget : Z) : heap := Heap ∅ 1 budget.

(** Every live block was handed out by [operator new], and the budget is
    not overdrawn. *)
Definition heap_wf (h : heap) : Prop :=
  (∀ b, is_Some (blocks h !! b) → (b < next_block h)%positive) ∧ 0 ≤ avail h.

(** The heap after its block [b] is replaced by [cs]. *)
Definition set_block (b : positive) (cs : list cell) (h : heap) : heap :=
  Heap (<[b := cs]> (blocks h)) (next_block h) (avail h).

(** The heap after a fresh block of [n] indeterminate bytes is added. *)
Definition add_block (n : Z) (h : heap) : heap :=
  Heap (<[next_block h := replicate (Z.to_nat n) None]> (blocks h))
       (Pos.succ (next_block h)) (avail h - n).

(** The heap after a fresh block that holds the cells [cs] is added: what
    an allocation followed by writes to the new block leaves. *)
Definition fresh_block (cs : list cell) (h : heap) : heap :=
  Heap (<[next_block h := cs]> (blocks h))
       (Pos.succ (next_block h)) (avail h - Z.of_nat (length cs)).

(** The heap after block [b] of [n] bytes is released. *)
Definition remove_block (b : positive) (n : Z) (h : heap) : heap :=
  Heap (delete b (blocks h)) (next_block h) (avail h + n).

(** The cells of [n] bytes at [p], when [p] points into a live block and the
    [n] bytes lie inside it. *)
Definition in_bounds (o n : Z) (cs : list cell) : Prop :=
  0 ≤ o ∧ 0 ≤ n ∧ o + n ≤ Z.of_nat (length cs).

#[export] Instance in_bounds_dec o n cs : Decision (in_bounds o n cs).
Proof. unfold in_bounds. apply _. Defined.

(** [h'] has every live block of [h], with the same cells: nothing that
    was reachable in [h] has been written or released. *)
Definition extends (h h' : heap) : Prop :=
  ∀ b cs, blocks h !! b = Some cs → blocks h' !! b = Some cs.

#[export] Instance extends_preorder : PreOrder extends.
Proof. split; [by intros h b cs|]. intros h1 h2 h3 H12 H23 b cs Hb. auto. Qed.

(** ** The primitives *)

(** [operator new(n)]: a fresh block of [n] indeterminate bytes, or
    [std::bad_alloc] when the heap cannot supply them. *)
Definition operator_new (n : Z) : M heap ptr := λ h,
  if decide (n ≤ avail h)
  then Ok (Ptr (next_block h) 0) (add_block n h)
  else Throw bad_alloc h.

(** [operator delete(p)]: releases the block that [p] is the start of; does
    nothing for the null pointer. *)
Definition operator_delete (p : ptr) : M heap () := λ h,
  match p with
  | Null => Ok () h
  | Ptr b o =>
    match blocks h !! b with
    | Some cs =>
      if decide (o = 0) then Ok () (remove_block b (Z.of_nat (length cs)) h)
      else Undef
    | None => Undef
    end
  end.

(** Reading [n] cells at [p]. *)
Definition load_bytes (p : ptr) (n : Z) : M heap (list cell) := λ h,
  match p with
  | Null => Undef
  | Ptr b o =>
    match blocks h !! b with
    | Some cs =>
      if decide (in_bounds o n cs)
      then Ok (slice (Z.to_nat o) (Z.to_nat n) cs) h
      else Undef
    | None => Undef
    end
  end.

(** Writing the cells [k] at [p]. *)
Definition store_bytes (p : ptr) (k : list cell) : M heap () := λ h,
  match p with
  | Null => Undef
  | Ptr b o =>
    match blocks h !! b with
    | Some cs =>
      if decide (in_bounds o (Z.of_nat (length k)) cs)
      then Ok () (set_block b (splice (Z.to_nat o) k cs) h)
      else Undef
    | None => Undef
    end
  end.

(** [memcpy(dst, src, n)] from managed storage into the heap.  [src] is
    what the container's [data()] points to: [None] is a null pointer, and at
    least [n] bytes must be readable there. *)
Definition memcpy_in (dst : ptr) (src : option (list byte)) (n : Z) : M heap () :=
  match src with
  | None => undefined
  | Some bs =>
    if decide (0 ≤ n ≤ Z.of_nat (length bs))
    then store_bytes dst (Some <$> take (Z.to_nat n) bs)
    else undefined
  end.

(** [memcpy(dst, src, n)] from the heap into managed storage, returning the
    bytes that arrive there.  A managed container of the model holds values,
    so copying a byte whose value is indeterminate is [Undef]. *)
Definition memcpy_out (src : ptr) (n : Z) : M heap (list byte) :=
  cs ← load_bytes src n;
  match mapM id cs with
  | Some bs => mret bs
  | None => undefined
  end.

(** [memset(p, v, n)]. *)
Definition memset (p : ptr) (v : Z) (n : Z) : M heap () :=
  if decide (0 ≤ n)
  then store_bytes p (replicate (Z.to_nat n) (Some (byte_of_Z v)))
  else undefined.

(** ** Equations of the primitives *)

Lemma operator_new_Ok n h :
  n ≤ avail h → operator_new n h = Ok (Ptr (next_block h) 0) (add_block n h).
Proof. intros. unfold operator_new. by case_decide. Qed.

Lemma operator_new_Throw n h :
  avail h < n → operator_new n h = Throw bad_alloc h.
Proof. intros. unfold operator_new. case_decide; [lia|done]. Qed.

Lemma operator_delete_Ok b cs h :
  blocks h !! b = Some cs →
  operator_delete (Ptr b 0) h = Ok () (remove_block b (Z.of_nat (length cs)) h).
Proof. intros Hb. unfold operator_delete. rewrite Hb. by case_decide. Qed.

Lemma operator_delete_stale b o h :
  blocks h !! b = None → operator_delete (Ptr b o) h = Undef.
Proof. intros Hb. unfold operator_delete. by rewrite Hb. Qed.

Lemma load_bytes_Ok b o n cs h :
  blocks h !! b = Some cs → in_bounds o n cs →
  load_bytes (Ptr b o) n h = Ok (slice (Z.to_nat o) (Z.to_nat n) cs) h.
Proof. intros Hb ?. unfold load_bytes. rewrite Hb. by case_decide. Qed.

Lemma store_bytes_Ok b o k cs h :
  blocks h !! b = Some cs → in_bounds o (Z.of_nat (length k)) cs →
  store_bytes (Ptr b o) k h = Ok () (set_block b (splice (Z.to_nat o) k cs) h).
Proof. intros Hb ?. unfold store_bytes. rewrite Hb. by case_decide. Qed.

Lemma store_bytes_out_of_bounds b o k cs h :
  blocks h !! b = Some cs → ¬ in_bounds o (Z.of_nat (length k)) cs →
  store_bytes (Ptr b o) k h = Undef.
Proof. intros Hb ?. unfold store_bytes. rewrite Hb. by case_decide. Qed.

Lemma memcpy_in_Ok b o bs n cs h :
  blocks h !! b = Some cs → 0 ≤ n ≤ Z.of_nat (length bs) → in_bounds o n cs →
  memcpy_in (Ptr b o) (Some bs) n h =
  Ok () (set_block b (splice (Z.to_nat o) (Some <$> take (Z.to_nat n) bs) cs) h).
Proof.
  intros Hb Hn Hin. unfold memcpy_in. case_decide; [|done].
  apply store_bytes_Ok; [done|]. unfold in_bounds in *. len.
Qed.

Lemma memcpy_out_Ok b o n cs bs h :
  blocks h !! b = Some cs → in_bounds o n cs →
  slice (Z.to_nat o) (Z.to_nat n) cs = Some <$> bs →
  memcpy_out (Ptr b o) n h = Ok bs h.
Proof.
  intros Hb Hin Hbs. unfold memcpy_out.
  rewrite (bind_Ok _ _ _ _ _ (load_bytes_Ok _ _ _ _ _ Hb Hin)).
  by rewrite Hbs, mapM_id_Some.
Qed.

Lemma memset_Ok b o v n cs h :
  blocks h !! b = Some cs → in_bounds o n cs →
  memset (Ptr b o) v n h =
  Ok () (set_block b (splice (Z.to_nat o)
                        (replicate (Z.to_nat n) (Some (byte_of_Z v))) cs) h).
Proof.
  intros Hb Hin. unfold memset. case_decide; [|unfold in_bounds in *; lia].
  apply store_bytes_Ok; [done|]. unfold in_bounds in *. len.
Qed.

(** ** Blocks of the updated heaps *)

Lemma blocks_add_block_same n h :
  blocks (add_block n h) !! next_block h = Some (replicate (Z.to_nat n) None).
Proof. apply lookup_insert_eq. Qed.

Lemma blocks_add_block_ne n h b :
  b ≠ next_block h → blocks (add_block n h) !! b = blocks h !! b.
Proof. intros. by apply lookup_insert_ne. Qed.

Lemma blocks_set_block_same b cs h : blocks (set_block b cs h) !! b = Some cs.
Proof. apply lookup_insert_eq. Qed.

Lemma blocks_set_block_ne b b' cs h :
  b' ≠ b → blocks (set_block b cs h) !! b' = blocks h !! b'.
Proof. intros. by apply lookup_insert_ne. Qed.

Lemma blocks_remove_block_same b n h : blocks (remove_block b n h) !! b = None.
Proof. apply lookup_delete_eq. Qed.

Lemma blocks_remove_block_ne b b' n h :
  b' ≠ b → blocks (remove_block b n h) !! b' = blocks h !! b'.
Proof. intros. by apply lookup_delete_ne. Qed.

Lemma set_block_set_block b cs1 cs2 h :
  set_block b cs2 (set_block b cs1 h) = set_block b cs2 h.
Proof. unfold set_block. simpl. by rewrite insert_insert_eq. Qed.

Lemma add_block_fresh_block n h :
  0 ≤ n → add_block n h = fresh_block (replicate (Z.to_nat n) None) h.
Proof. intros. unfold add_block, fresh_block. f_equal. len. Qed.

Lemma set_block_fresh_block cs cs' h :
  length cs' = length cs →
  set_block (next_block h) cs' (fresh_block cs h) = fresh_block cs' h.
Proof.
  intros Hl. unfold set_block, fresh_block. simpl.
  by rewrite insert_insert_eq, Hl.
Qed.

Lemma blocks_fresh_block_same cs h :
  blocks (fresh_block cs h) !! next_block h = Some cs.
Proof. apply lookup_insert_eq. Qed.

Lemma blocks_fresh_block_ne cs h b :
  b ≠ next_block h → blocks (fresh_block cs h) !! b = blocks h !! b.
Proof. intros. by apply lookup_insert_ne. Qed.

(** ** Inversion: what a primitive that returned has done *)

Lemma operator_delete_inv p h h' :
  operator_delete p h = Ok () h' →
  (p = Null ∧ h' = h) ∨
  (∃ b cs, p = Ptr b 0 ∧ blocks h !! b = Some cs ∧
           h' = remove_block b (Z.of_nat (length cs)) h).
Proof.
  unfold operator_delete. destruct p as [|b o]; [intros [= <-]; by left|].
  destruct (blocks h !! b) as [cs|] eqn:Hb; [|done].
  case_decide; [|done]. intros [= <-]. right. exists b, cs. by subst.
Qed.

Lemma load_bytes_inv p n h cs h' :
  load_bytes p n h = Ok cs h' →
  h' = h ∧ ∃ b o bs, p = Ptr b o ∧ blocks h !! b = Some bs ∧ in_bounds o n bs ∧
                     cs = slice (Z.to_nat o) (Z.to_nat n) bs.
Proof.
  unfold load_bytes. destruct p as [|b o]; [done|].
  destruct (blocks h !! b) as [bs|] eqn:Hb; [|done].
  case_decide; [|done]. intros [= <- <-]. split; [done|]. by exists b, o, bs.
Qed.

Lemma store_bytes_inv p k h h' :
  store_bytes p k h = Ok () h' →
  ∃ b o cs, p = Ptr b o ∧ blocks h !! b = Some cs ∧
            in_bounds o (Z.of_nat (length k)) cs ∧
            h' = set_block b (splice (Z.to_nat o) k cs) h.
Proof.
  unfold store_bytes. destruct p as [|b o]; [done|].
  destruct (blocks h !! b) as [cs|] eqn:Hb; [|done].
  case_decide; [|done]. intros [= <-]. by exists b, o, cs.
Qed.

Lemma memcpy_in_inv dst src n h h' :
  memcpy_in dst src n h = Ok () h' →
  ∃ bs, src = Some bs ∧ 0 ≤ n ≤ Z.of_nat (length bs) ∧
        store_bytes dst (Some <$> take (Z.to_nat n) bs) h = Ok () h'.
Proof.
  unfold memcpy_in. destruct src as [bs|]; [|done].
  case_decide; [|done]. intros. by exists bs.
Qed.

Lemma memset_inv p v n h h' :
  memset p v n h = Ok () h' →
  0 ≤ n ∧ store_bytes p (replicate (Z.to_nat n) (Some (byte_of_Z v))) h = Ok () h'.
Proof. unfold memset. case_decide; [|done]. done. Qed.

Lemma memcpy_out_inv p n h bs h' :
  memcpy_out p n h = Ok bs h' →
  h' = h ∧ load_bytes p n h = Ok (Some <$> bs) h.
Proof.
  unfold memcpy_out. intros (cs & h1 & Hload & Hk)%bind_Ok_inv.
  destruct (load_bytes_inv _ _ _ _ _ Hload) as [-> _].
  destruct (mapM id cs) as [bs'|] eqn:Hcs; [|done].
  injection Hk as <- <-. by rewrite (mapM_id_inv _ _ Hcs) in Hload.
Qed.

(** A write changes one block, which was live, and keeps its size. *)
Lemma store_bytes_blocks p k h h' :
  store_bytes p k h = Ok () h' →
  ∃ b o cs cs', p = Ptr b o ∧ blocks h !! b = Some cs ∧ length cs' = length cs ∧
                h' = set_block b cs' h.
Proof.
  intros (b & o & cs & -> & Hb & Hin & ->)%store_bytes_inv.
  exists b, o, cs, (splice (Z.to_nat o) k cs). repeat split; [done|].
  apply length_splice. unfold in_bounds in Hin. lia.
Qed.

(** ** Writes to a block that was just allocated *)

(** Copying [n] bytes to the start of a fresh block of [total] bytes leaves
    the rest of it indeterminate. *)
Lemma memcpy_in_fresh bs n total h :
  0 ≤ n ≤ Z.of_nat (length bs) → n ≤ total →
  memcpy_in (Ptr (next_block h) 0) (Some bs) n (add_block total h) =
  Ok () (fresh_block ((Some <$> take (Z.to_nat n) bs) ++
                      replicate (Z.to_nat (total - n)) None) h).
Proof.
  intros Hn Htot. rewrite add_block_fresh_block by lia.
  erewrite memcpy_in_Ok; [|apply blocks_fresh_block_same|done|unfold in_bounds; len].
  rewrite set_block_fresh_block by (rewrite length_splice; len).
  do 2 f_equal. unfold splice. rewrite take_0, drop_replicate. simpl.
  do 2 f_equal. len.
Qed.

(** Setting the [n] bytes that follow the cells [cs] of a fresh block. *)
Lemma memset_fresh_tail cs v n h :
  0 ≤ n →
  memset (Ptr (next_block h) (Z.of_nat (length cs))) v n
    (fresh_block (cs ++ replicate (Z.to_nat n) None) h) =
  Ok () (fresh_block (cs ++ replicate (Z.to_nat n) (Some (byte_of_Z v))) h).
Proof.
  intros Hn.
  erewrite memset_Ok; [|apply blocks_fresh_block_same|unfold in_bounds; len].
  rewrite set_block_fresh_block by (rewrite length_splice; len).
  rewrite Nat2Z.id, splice_app_r; [done|len].
Qed.

(** ** Well-formedness *)

Lemma heap_wf_empty budget : 0 ≤ budget → heap_wf (empty_heap budget).
Proof. intros. split; [|done]. intros b [cs Hb]. simpl in Hb. by rewrite lookup_empty in Hb. Qed.

(** The identifier that [operator new] returns next is not in use. *)
Lemma heap_wf_fresh h : heap_wf h → blocks h !! next_block h = None.
Proof.
  intros [Hlt _]. apply eq_None_not_Some. intros Hs%Hlt. lia.
Qed.

Lemma heap_wf_add_block n h : heap_wf h → n ≤ avail h → heap_wf (add_block n h).
Proof.
  intros [Hlt Hav] Hn. split; simpl; [|lia].
  intros b. rewrite lookup_insert_is_Some. intros [->|[_ Hs%Hlt]]; lia.
Qed.

Lemma heap_wf_set_block b cs h :
  heap_wf h → is_Some (blocks h !! b) → heap_wf (set_block b cs h).
Proof.
  intros [Hlt Hav] Hb. split; simpl; [|done].
  intros b'. rewrite lookup_insert_is_Some. intros [->|[_ Hs]]; auto.
Qed.

Lemma heap_wf_remove_block b n h :
  heap_wf h → 0 ≤ n → heap_wf (remove_block b n h).
Proof.
  intros [Hlt Hav] Hn. split; simpl; [|lia].
  intros b'. rewrite lookup_delete_is_Some. intros [_ Hs]. auto.
Qed.

(** Releasing the block that was just added gives back the heap, up to the
    identifier that is spent. *)
Lemma remove_add_block n h :
  heap_wf h → 0 ≤ n →
  remove_block (next_block h) n (add_block n h) =
  Heap (blocks h) (Pos.succ (next_block h)) (avail h).
Proof.
  intros Hwf Hn. unfold remove_block, add_block. simpl. f_equal; [|lia].
  rewrite delete_insert_eq. apply delete_id, heap_wf_fresh, Hwf.
Qed.

Lemma heap_wf_store_bytes p k h h' :
  heap_wf h → store_bytes p k h = Ok () h' → heap_wf h'.
Proof.
  intros Hwf (b & o & cs & cs' & -> & Hb & _ & ->)%store_bytes_blocks.
  apply heap_wf_set_block; [done|by eexists].
Qed.

(** ** The frame *)

Lemma extends_add_block n h : heap_wf h → extends h (add_block n h).
Proof.
  intros Hwf b cs Hb. rewrite blocks_add_block_ne; [done|].
  intros ->. by rewrite (heap_wf_fresh _ Hwf) in Hb.
Qed.

Lemma extends_fresh_block cs h : heap_wf h → extends h (fresh_block cs h).
Proof.
  intros Hwf b bs Hb. rewrite blocks_fresh_block_ne; [done|].
  intros ->. by rewrite (heap_wf_fresh _ Hwf) in Hb.
Qed.

(** A write to a block that [h] does not have keeps what [h] has. *)
Lemma extends_set_block h h' b cs :
  extends h h' → blocks h !! b = None → extends h (set_block b cs h').
Proof.
  intros Hext Hnone b' cs' Hb'. rewrite blocks_set_block_ne; [by apply Hext|].
  intros ->. by rewrite Hnone in Hb'.
Qed.

Lemma heap_wf_fresh_block cs h :
  heap_wf h → Z.of_nat (length cs) ≤ avail h → heap_wf (fresh_block cs h).
Proof.
  intros [Hlt Hav] Hn. split; simpl; [|lia].
  intros b. rewrite lookup_insert_is_Some. intros [->|[_ Hs%Hlt]]; lia.
Qed.

(** Releasing a fresh block gives back the heap, up to the identifier. *)
Lemma remove_fresh_block cs h :
  heap_wf h →
  remove_block (next_block h) (Z.of_nat (length cs)) (fresh_block cs h) =
  Heap (blocks h) (Pos.succ (next_block h)) (avail h).
Proof.
  intros Hwf. unfold remove_block, fresh_block. simpl. f_equal; [|lia].
  rewrite delete_insert_eq. apply delete_id, heap_wf_fresh, Hwf.
Qed.

(** ** Accounting

    The bytes of the live blocks, and the budget that is left, add up to
    what the process started with: [operator new] takes from the budget what
    it puts into a block, [operator delete] gives it back, and a write keeps
    the size of the block it changes. *)

Definition bytes_of (m : gmap positive (list cell)) : Z :=
  map_fold (λ _ cs acc, Z.of_nat (length cs) + acc) 0 m.

Definition live_bytes (h : heap) : Z := bytes_of (blocks h).

(** The heap accounts for [budget] bytes. *)
Definition conserves (budget : Z) (h : heap) : Prop :=
  avail h + live_bytes h = budget.

#[export] Instance conserves_dec budget h : Decision (conserves budget h).
Proof. unfold conserves. apply _. Defined.

Lemma bytes_of_empty : bytes_of ∅ = 0.
Proof. apply map_fold_empty. Qed.

Lemma bytes_of_insert m b cs :
  m !! b = None → bytes_of (<[b := cs]> m) = Z.of_nat (length cs) + bytes_of m.
Proof. intros. unfold bytes_of. rewrite map_fold_insert_L; [done|intros; lia|done]. Qed.

Lemma bytes_of_delete m b cs :
  m !! b = Some cs → bytes_of (delete b m) = bytes_of m - Z.of_nat (length cs).
Proof.
  intros Hb. unfold bytes_of.
  rewrite (map_fold_delete_L _ _ b cs m); [lia|intros; lia|done].
Qed.

Lemma bytes_of_nonneg m : 0 ≤ bytes_of m.
Proof.
  induction m as [|b cs m Hb IH] using map_ind; [by rewrite bytes_of_empty|].
  rewrite bytes_of_insert by done. lia.
Qed.

(** Replacing a block by one of the same size. *)
Lemma bytes_of_replace m b cs cs' :
  m !! b = Some cs → length cs' = length cs → bytes_of (<[b := cs']> m) = bytes_of m.
Proof.
  intros Hb Hlen. rewrite <- (insert_delete_eq m b cs') .
  rewrite bytes_of_insert by apply lookup_delete_eq.
  rewrite (bytes_of_delete _ _ _ Hb). lia.
Qed.

Lemma conserves_empty budget : conserves budget (empty_heap budget).
Proof. unfold conserves, live_bytes. simpl. rewrite bytes_of_empty. lia. Qed.

Lemma conserves_fresh_block budget cs h :
  heap_wf h → conserves budget h → conserves budget (fresh_block cs h).
Proof.
  unfold conserves, live_bytes. intros Hwf Hc. simpl.
  rewrite bytes_of_insert by by apply heap_wf_fresh. lia.
Qed.

Lemma conserves_add_block budget n h :
  heap_wf h → 0 ≤ n → conserves budget h → conserves budget (add_block n h).
Proof.
  intros. rewrite add_block_fresh_block by done.
  by apply conserves_fresh_block.
Qed.

Lemma conserves_remove_block budget b cs h :
  blocks h !! b = Some cs → conserves budget h →
  conserves budget (remove_block b (Z.of_nat (length cs)) h).
Proof.
  unfold conserves, live_bytes. intros Hb Hc. simpl.
  rewrite (bytes_of_delete _ _ _ Hb). lia.
Qed.

Lemma conserves_set_block budget b cs cs' h :
  blocks h !! b = Some cs → length cs' = length cs → conserves budget h →
  conserves budget (set_block b cs' h).
Proof.
  unfold conserves, live_bytes. intros Hb Hlen Hc. simpl.
  by rewrite (bytes_of_replace _ _ _ _ Hb Hlen).
Qed.

Lemma conserves_store_bytes budget p k h h' :
  store_bytes p k h = Ok () h' → conserves budget h → conserves budget h'.
Proof.
  intros (b & o & cs & cs' & -> & Hb & Hlen & ->)%store_bytes_blocks.
  by apply conserves_set_block with cs.
Qed.

#[export] Hint Resolve conserves_empty conserves_fresh_block conserves_add_block
  conserves_remove_block conserves_set_block conserves_store_bytes : cni.
#[export] Hint Resolve heap_wf_empty heap_wf_add_block heap_wf_set_block
  heap_wf_remove_block heap_wf_fresh heap_wf_fresh_block heap_wf_store_bytes
  extends_add_block extends_fresh_block extends_set_block : cni.
#[export] Hint Rewrite blocks_add_block_same blocks_set_block_same
  blocks_remove_block_same blocks_fresh_block_same set_block_set_block : cni_rw.
