(* ===== verification/MemoryHelper.v ===== *)
(** * MemoryHelper: the class [CNIMemoryHelper]

    One definition per static method of [CNIMemoryHelper]
    ([src/cyh/cni.hpp], lines 14 to 44), each the whole method with its
    guards: the null tests of [Free] and [ZeroMemory], the zero test and the
    [try]/[catch] of [Allocate], the free-then-allocate of [Reallocate].

    The theorems give the result of every method on every branch, show that
    no method throws and that [Allocate] has no undefined behaviour
    whatever it is given, that a block that is allocated and freed leaves
    nothing behind, that [Reallocate] is exactly [Free] followed by
    [Allocate] (its own test for a zero size is subsumed by the one in
    [Allocate]), that [Allocate] followed by [ZeroMemory] needs no test for
    null in between, and what [ZeroMemory] does when its byte count wraps
    around.  The lemmas before them give one equation per branch and show
    that the methods keep the heap well formed. *)

From Stdlib Require Import Strings.Byte.
From S2P Require Import Prelude Outcome Word Primitive Memory.
#[local] Open Scope Z_scope.

Module CNIMemoryHelper.

(** [static void Free(void* ptr)] *)
Definition Free (p : ptr) : M heap () :=
  if decide (p ≠ Null) then operator_delete p else mret ().

(** [static void* Allocate(nuint byteSize)] *)
Definition Allocate (byteSize : Z) : M heap ptr :=
  if decide (byteSize = 0) then mret Null
  else try_catch (operator_new byteSize) (λ _, mret Null).

(** [static void* Reallocate(void* ptr, nuint byteSize)] *)
Definition Reallocate (p : ptr) (byteSize : Z) : M heap ptr :=
  Free p;;
  if decide (byteSize = 0) then mret Null else Allocate byteSize.

(** [template<class T> static void ZeroMemory(T* obj, nuint count)] *)
Definition ZeroMemory {arch : Arch} (T : Type) `{Primitive T}
    (obj : ptr) (count : Z) : M heap () :=
  if decide (obj ≠ Null) then memset obj 0 (nuint_mul (sizeof T) count)
  else mret ().

(** ** Equations of the methods, one per branch *)

Lemma Free_Null h : Free Null h = Ok () h.
Proof. unfold Free. by case_decide. Qed.

Lemma Free_live b cs h :
  blocks h !! b = Some cs →
  Free (Ptr b 0) h = Ok () (remove_block b (Z.of_nat (length cs)) h).
Proof. intros. unfold Free. case_decide; [|done]. by apply operator_delete_Ok. Qed.

Lemma Free_stale b o h : blocks h !! b = None → Free (Ptr b o) h = Undef.
Proof. intros. unfold Free. case_decide; [|done]. by apply operator_delete_stale. Qed.

Lemma Allocate_0 h : Allocate 0 h = Ok Null h.
Proof. unfold Allocate. by case_decide. Qed.

Lemma Allocate_Ok n h :
  n ≠ 0 → n ≤ avail h →
  Allocate n h = Ok (Ptr (next_block h) 0) (add_block n h).
Proof.
  intros. unfold Allocate. case_decide; [done|].
  by apply try_catch_Ok, operator_new_Ok.
Qed.

Lemma Allocate_exhausted n h : avail h < n → Allocate n h = Ok Null h.
Proof.
  intros. unfold Allocate. case_decide; [done|].
  by rewrite (try_catch_Throw _ _ _ _ _ (operator_new_Throw n h ltac:(done))).
Qed.

(** What [Allocate] returns is null or the start of a fresh block. *)
Lemma Allocate_cases n h :
  Allocate n h = Ok Null h ∨
  (n ≠ 0 ∧ n ≤ avail h ∧
   Allocate n h = Ok (Ptr (next_block h) 0) (add_block n h)).
Proof.
  destruct (decide (n = 0)) as [->|]; [left; apply Allocate_0|].
  destruct (decide (n ≤ avail h)); [right|left].
  - by rewrite Allocate_Ok.
  - apply Allocate_exhausted. lia.
Qed.

Lemma Allocate_heap_wf n h p h' :
  heap_wf h → Allocate n h = Ok p h' → heap_wf h'.
Proof.
  intros Hwf. destruct (Allocate_cases n h) as [->|(_ & ? & ->)];
    intros [= <- <-]; auto with cni.
Qed.

Lemma Free_heap_wf p h h' : heap_wf h → Free p h = Ok () h' → heap_wf h'.
Proof.
  intros Hwf. unfold Free, operator_delete. case_decide; [|by intros [= <-]].
  destruct p as [|b o]; [done|]. destruct (blocks h !! b); [|done].
  case_decide; [|done]. intros [= <-]. apply heap_wf_remove_block; [done|lia].
Qed.

Lemma ZeroMemory_Null {arch : Arch} T `{Primitive T} count h :
  ZeroMemory T Null count h = Ok () h.
Proof. unfold ZeroMemory. by case_decide. Qed.

Lemma ZeroMemory_live {arch : Arch} T `{Primitive T} b o count cs h :
  blocks h !! b = Some cs → in_bounds o (nuint_mul (sizeof T) count) cs →
  ZeroMemory T (Ptr b o) count h =
  Ok () (set_block b
           (splice (Z.to_nat o)
              (replicate (Z.to_nat (nuint_mul (sizeof T) count)) (Some x00)) cs) h).
Proof.
  intros Hb Hin. unfold ZeroMemory. case_decide; [|done].
  by rewrite (memset_Ok _ _ _ _ _ _ Hb Hin).
Qed.

Lemma ZeroMemory_heap_wf {arch : Arch} T `{Primitive T} obj count h h' :
  heap_wf h → ZeroMemory T obj count h = Ok () h' → heap_wf h'.
Proof.
  intros Hwf. unfold ZeroMemory. case_decide; [|by intros [= <-]].
  intros [_ Hst]%memset_inv. eauto with cni.
Qed.

Lemma Reallocate_heap_wf p n h q h' :
  heap_wf h → Reallocate p n h = Ok q h' → heap_wf h'.
Proof.
  intros Hwf. unfold Reallocate. intros ([] & h1 & Hfree & Hk)%bind_Ok_inv.
  apply Free_heap_wf in Hfree; [|done].
  case_decide; [by injection Hk as <- <-|by eapply Allocate_heap_wf].
Qed.

(** ** Theorems *)

(** C9 (result of Allocate): a request of zero bytes, or one that the heap
    cannot supply, returns the null pointer and leaves the heap as it was;
    any other request returns the start of a fresh block of that many
    indeterminate bytes and reduces the budget by the size of the block. *)
Theorem Allocate_spec n h :
  Allocate n h =
  if decide (n = 0 ∨ avail h < n) then Ok Null h
  else Ok (Ptr (next_block h) 0) (add_block n h).
Proof.
  case_decide as Hd.
  - destruct Hd as [->|]; [apply Allocate_0|by apply Allocate_exhausted].
  - apply Allocate_Ok; lia.
Qed.

(** C10 (no exception leaves the helper): whatever their arguments and
    whatever the state of the heap, [Free], [Allocate], [Reallocate] and
    [ZeroMemory] do not leave by an exception; in particular the
    [std::bad_alloc] of [operator new] never reaches the caller. *)
Theorem helper_nothrow {arch : Arch} T `{Primitive T} p n h :
  nothrow (Free p) h ∧ nothrow (Allocate n) h ∧
  nothrow (Reallocate p n) h ∧ nothrow (ZeroMemory T p n) h.
Proof.
  assert (HF : ∀ q h0, nothrow (Free q) h0).
  { intros q h0 e s. unfold Free, operator_delete.
    repeat (case_decide || case_match); done. }
  assert (HA : ∀ m h0, nothrow (Allocate m) h0).
  { intros m h0 e s. by destruct (Allocate_cases m h0) as [->|(_ & _ & ->)]. }
  split_and!; [apply HF|apply HA| |].
  - intros e s. unfold Reallocate. run_M. pose proof (HF p h e) as HFp.
    destruct (Free p h) as [[] h1|e1 h1|] eqn:E; [|by intros [= -> ->]; eapply HFp|done].
    case_decide; [done|apply HA].
  - intros e s. unfold ZeroMemory, memset, store_bytes. run_M.
    repeat (case_decide || case_match); done.
Qed.

(** C25 (release): [Free] of the start of a live block removes that block,
    gives its bytes back to the budget, and leaves every other block as it
    was. *)
Theorem Free_releases b cs h :
  blocks h !! b = Some cs →
  ∃ h', Free (Ptr b 0) h = Ok () h' ∧
        blocks h' !! b = None ∧
        avail h' = avail h + Z.of_nat (length cs) ∧
        ∀ b', b' ≠ b → blocks h' !! b' = blocks h !! b'.
Proof.
  intros Hb. eexists. split; [by apply Free_live|]. split_and!.
  - apply blocks_remove_block_same.
  - done.
  - intros. by apply blocks_remove_block_ne.
Qed.

(** C26 (double release): releasing the same block twice is undefined
    behaviour; the second [Free] meets a pointer that is no longer live. *)
Theorem Free_twice_undefined b cs h :
  blocks h !! b = Some cs → (Free (Ptr b 0);; Free (Ptr b 0)) h = Undef.
Proof.
  intros Hb. rewrite (bind_Ok _ _ _ _ _ (Free_live b cs h Hb)).
  apply Free_stale, blocks_remove_block_same.
Qed.

(** C23 (allocate then free): on a well-formed heap, a block that is
    allocated and then freed leaves the blocks and the budget of the heap as
    they were, whether the allocation succeeded or not. *)
Theorem Allocate_Free_roundtrip n h :
  heap_wf h → 0 ≤ n →
  ∃ h', (p ← Allocate n; Free p) h = Ok () h' ∧
        blocks h' = blocks h ∧ avail h' = avail h.
Proof.
  intros Hwf Hn. destruct (Allocate_cases n h) as [HA|(Hnz & Hav & HA)];
    rewrite (bind_Ok _ _ _ _ _ HA).
  - exists h. by rewrite Free_Null.
  - eexists. split; [apply Free_live, blocks_add_block_same|].
    rewrite length_replicate, Z2Nat.id by done.
    by rewrite remove_add_block.
Qed.

(** C11 (Reallocate is free-then-allocate): [Reallocate] is equivalent to
    [Free] followed by [Allocate]; its own test for a zero size changes
    nothing, because [Allocate] makes the same test. *)
Theorem Reallocate_equiv p n : Reallocate p n ≡ (Free p;; Allocate n).
Proof.
  unfold Reallocate. f_equiv. intros []. case_decide as Hn; [|done].
  intros h. subst n. by rewrite Allocate_0.
Qed.

(** C12 (Reallocate does not copy): reallocating a live block to a size
    that the heap can supply, counting the bytes that the old block gives
    back, releases the old block and returns a different, fresh block whose
    bytes are all indeterminate: no content is preserved. *)
Theorem Reallocate_destructive b cs n h :
  heap_wf h → blocks h !! b = Some cs →
  0 < n → n ≤ avail h + Z.of_nat (length cs) →
  ∃ h', Reallocate (Ptr b 0) n h = Ok (Ptr (next_block h) 0) h' ∧
        next_block h ≠ b ∧
        blocks h' !! b = None ∧
        blocks h' !! next_block h = Some (replicate (Z.to_nat n) None).
Proof.
  intros Hwf Hb Hn Hav.
  exists (add_block n (remove_block b (Z.of_nat (length cs)) h)). split_and!.
  - unfold Reallocate. rewrite (bind_Ok _ _ _ _ _ (Free_live b cs h Hb)).
    case_decide; [lia|]. by rewrite Allocate_Ok by (simpl; lia).
  - intros Heq. rewrite <- Heq, (heap_wf_fresh _ Hwf) in Hb. done.
  - simpl. rewrite lookup_insert_ne, lookup_delete_eq; [done|].
    intros Heq. rewrite <- Heq, (heap_wf_fresh _ Hwf) in Hb. done.
  - apply lookup_insert_eq.
Qed.

(** C38 (Reallocate to nothing, or without memory): when the new size is
    zero or the heap cannot supply it, [Reallocate] returns the null
    pointer, and the old block has been released all the same. *)
Theorem Reallocate_loses_block b cs n h :
  blocks h !! b = Some cs → n = 0 ∨ avail h + Z.of_nat (length cs) < n →
  Reallocate (Ptr b 0) n h = Ok Null (remove_block b (Z.of_nat (length cs)) h).
Proof.
  intros Hb Hn. unfold Reallocate. rewrite (bind_Ok _ _ _ _ _ (Free_live b cs h Hb)).
  case_decide; [done|]. destruct Hn; [done|]. by apply Allocate_exhausted.
Qed.

(** C40 (allocation is fresh): on a well-formed heap, what [Allocate]
    returns is null or the start of a block that was not live before, of
    the size asked for, and every block that was live is still there with
    the same bytes. *)
Theorem Allocate_fresh n h p h' :
  heap_wf h → Allocate n h = Ok p h' →
  extends h h' ∧
  (p = Null ∨
   ∃ b, p = Ptr b 0 ∧ blocks h !! b = None ∧
        blocks h' !! b = Some (replicate (Z.to_nat n) None)).
Proof.
  intros Hwf. destruct (Allocate_cases n h) as [->|(_ & _ & ->)]; intros [= <- <-].
  - split; [done|by left].
  - split; [by apply extends_add_block|]. right. exists (next_block h).
    split_and!; [done|by apply heap_wf_fresh|apply blocks_add_block_same].
Qed.

(** C39 (ZeroMemory): on a pointer to the start of a live block that holds
    at least [count] elements, [ZeroMemory] makes the first [count] elements
    value-initialised elements and leaves the bytes after them as they
    were; on the null pointer it does nothing. *)
Theorem ZeroMemory_zeroes {arch : Arch} T `{Primitive T} b cs count h :
  blocks h !! b = Some cs → 0 ≤ count →
  is_nuint (sizeof T * count) → sizeof T * count ≤ Z.of_nat (length cs) →
  ZeroMemory T (Ptr b 0) count h =
  Ok () (set_block b ((Some <$> encode (replicate (Z.to_nat count) (zero_value T)))
                      ++ drop (Z.to_nat (sizeof T * count)) cs) h) ∧
  ZeroMemory T Null count h = Ok () h.
Proof.
  intros Hb Hc Hnu Hle. split; [|apply ZeroMemory_Null].
  pose proof Hnu as [Hnn _].
  rewrite (ZeroMemory_live T b 0 count cs h Hb);
    rewrite nuint_mul_nowrap by done; [|unfold in_bounds; lia].
  do 2 f_equal. unfold splice. rewrite take_0, length_replicate. simpl.
  rewrite encode_replicate_zero, fmap_replicate. do 2 f_equal.
  pose proof sizeof_pos. nia.
Qed.

(** C24 (allocation followed by zeroing): asking [Allocate] for the bytes
    of [count] elements and passing what it returns to [ZeroMemory], with
    no test for null in between, never goes wrong.  When [count] is zero or
    the heap cannot supply the bytes, the pointer is null, [ZeroMemory] does
    nothing and the heap is as it was; otherwise the pointer is the start of
    a fresh block that holds exactly [count] value-initialised elements. *)
Theorem Allocate_ZeroMemory {arch : Arch} T `{Primitive T} count h :
  is_nuint (sizeof T * count) →
  (p ← Allocate (sizeof T * count); ZeroMemory T p count;; mret p) h =
  if decide (count = 0 ∨ avail h < sizeof T * count) then Ok Null h
  else Ok (Ptr (next_block h) 0)
          (fresh_block (Some <$> encode (replicate (Z.to_nat count) (zero_value T))) h).
Proof.
  intros Hnu. pose proof sizeof_pos. case_decide as Hd.
  - assert (HA : Allocate (sizeof T * count) h = Ok Null h).
    { destruct Hd as [->|]; [rewrite Z.mul_0_r; apply Allocate_0|].
      by apply Allocate_exhausted. }
    by rewrite (bind_Ok _ _ _ _ _ HA), (bind_Ok _ _ _ _ _ (ZeroMemory_Null T count h)).
  - destruct Hnu as [Hnn Hlt].
    assert (Hnz : sizeof T * count ≠ 0)
      by (destruct (decide (count = 0)); [tauto|nia]).
    rewrite (bind_Ok _ _ _ _ _ (Allocate_Ok _ h Hnz ltac:(lia))).
    rewrite add_block_fresh_block by done.
    erewrite bind_Ok; [done|].
    rewrite (ZeroMemory_live T _ 0 count _ _ (blocks_fresh_block_same _ _));
      rewrite nuint_mul_nowrap by done; [|unfold in_bounds; len].
    rewrite set_block_fresh_block by (rewrite length_splice; len).
    rewrite splice_0_all, encode_replicate_zero, fmap_replicate by len.
    do 3 f_equal. nia.
Qed.

(** C37 (the byte count of ZeroMemory wraps around): the product
    [sizeof(T) * count] is computed in [size_t].  When it exceeds the range
    of [size_t], [ZeroMemory] zeroes the product modulo that range, fewer
    bytes than [count] elements have, leaves the bytes after them as they
    were, and returns: nothing tells the caller that elements were not
    zeroed. *)
Theorem ZeroMemory_wraps {arch : Arch} T `{Primitive T} b cs count h :
  blocks h !! b = Some cs → is_nuint count →
  nuint_modulus ≤ sizeof T * count →
  (sizeof T * count) mod nuint_modulus ≤ Z.of_nat (length cs) →
  (sizeof T * count) mod nuint_modulus < sizeof T * count ∧
  ZeroMemory T (Ptr b 0) count h =
  Ok () (set_block b
           (replicate (Z.to_nat ((sizeof T * count) mod nuint_modulus)) (Some x00) ++
            drop (Z.to_nat ((sizeof T * count) mod nuint_modulus)) cs) h).
Proof.
  intros Hb Hc Hwrap Hle. pose proof nuint_modulus_pos.
  pose proof (Z.mod_pos_bound (sizeof T * count) nuint_modulus ltac:(done)) as Hmod.
  split; [lia|].
  rewrite (ZeroMemory_live T b 0 count cs h Hb); [|by split_and!; [|apply Hmod|rewrite Z.add_0_l]].
  unfold splice, nuint_mul, nuint. by rewrite take_0, length_replicate.
Qed.

(** ** Witnesses *)
Section witnesses.
#[local] Existing Instance arch64.

Lemma Free_releases_witness :
  ∃ h', Free (Ptr 1 0) (fresh_block [Some x01; None] (empty_heap 8)) = Ok () h' ∧
        blocks h' !! 1%positive = None ∧ avail h' = 6 + 2 ∧
        ∀ b', b' ≠ 1%positive →
              blocks h' !! b' = blocks (fresh_block [Some x01; None] (empty_heap 8)) !! b'.
Proof.
  refine (Free_releases 1 [Some x01; None]
            (fresh_block [Some x01; None] (empty_heap 8)) _).
  by vm_compute.
Defined.

Lemma Free_twice_undefined_witness :
  (Free (Ptr 1 0);; Free (Ptr 1 0)) (fresh_block [Some x01; None] (empty_heap 8)) = Undef.
Proof.
  refine (Free_twice_undefined 1 [Some x01; None]
            (fresh_block [Some x01; None] (empty_heap 8)) _).
  by vm_compute.
Defined.

Lemma Allocate_Free_roundtrip_witness :
  ∃ h', (p ← Allocate 4; Free p) (empty_heap 8) = Ok () h' ∧
        blocks h' = blocks (empty_heap 8) ∧ avail h' = avail (empty_heap 8).
Proof.
  apply Allocate_Free_roundtrip; [apply heap_wf_empty|]; by vm_compute.
Defined.

(** Seven bytes are asked for when six are left: the two bytes of the old
    block are given back first. *)
Lemma Reallocate_destructive_witness :
  ∃ h', Reallocate (Ptr 1 0) 7 (fresh_block [Some x01; Some x02] (empty_heap 8)) =
        Ok (Ptr 2 0) h' ∧
        2%positive ≠ 1%positive ∧
        blocks h' !! 1%positive = None ∧
        blocks h' !! 2%positive = Some [None; None; None; None; None; None; None].
Proof.
  refine (Reallocate_destructive 1 [Some x01; Some x02] 7
            (fresh_block [Some x01; Some x02] (empty_heap 8)) _ _ _ _);
    [apply heap_wf_fresh_block; [apply heap_wf_empty|]|..]; by vm_compute.
Defined.

Lemma Reallocate_loses_block_witness :
  Reallocate (Ptr 1 0) 100 (fresh_block [Some x01; Some x02] (empty_heap 8)) =
  Ok Null (remove_block 1 2 (fresh_block [Some x01; Some x02] (empty_heap 8))).
Proof.
  refine (Reallocate_loses_block 1 [Some x01; Some x02] 100
            (fresh_block [Some x01; Some x02] (empty_heap 8)) _ _);
    [|right]; by vm_compute.
Defined.

Lemma Allocate_fresh_witness :
  extends (empty_heap 8) (add_block 4 (empty_heap 8)) ∧
  (Ptr 1 0 = Null ∨
   ∃ b, Ptr 1 0 = Ptr b 0 ∧ blocks (empty_heap 8) !! b = None ∧
        blocks (add_block 4 (empty_heap 8)) !! b = Some (replicate (Z.to_nat 4) None)).
Proof.
  apply (Allocate_fresh 4 (empty_heap 8)); [apply heap_wf_empty|]; by vm_compute.
Defined.

Lemma Allocate_ZeroMemory_witness :
  (p ← Allocate 3; ZeroMemory byte p 3;; mret p) (empty_heap 8) =
  Ok (Ptr 1 0) (fresh_block [Some x00; Some x00; Some x00] (empty_heap 8)).
Proof. refine (Allocate_ZeroMemory byte 3 (empty_heap 8) _). by vm_compute. Defined.

(** On a platform with a 16-bit [size_t], 32769 elements of two bytes have
    65538 bytes, which wraps to 2: one element is zeroed. *)
Lemma ZeroMemory_wraps_witness :
  2 < 65538 ∧
  ZeroMemory (arch := arch16) uint16_t (Ptr 1 0) 32769
    (fresh_block [Some x07; Some x07; Some x07; Some x07] (empty_heap 8)) =
  Ok () (set_block 1 [Some x00; Some x00; Some x07; Some x07]
           (fresh_block [Some x07; Some x07; Some x07; Some x07] (empty_heap 8))).
Proof.
  refine (ZeroMemory_wraps (arch := arch16) uint16_t 1
            [Some x07; Some x07; Some x07; Some x07] 32769
            (fresh_block [Some x07; Some x07; Some x07; Some x07] (empty_heap 8))
            _ _ _ _); by vm_compute.
Defined.

Lemma ZeroMemory_zeroes_witness :
  ZeroMemory byte (Ptr 1 0) 2 (fresh_block [None; Some x07; Some x09] (empty_heap 8)) =
  Ok () (set_block 1 [Some x00; Some x00; Some x09]
           (fresh_block [None; Some x07; Some x09] (empty_heap 8))) ∧
  ZeroMemory byte Null 2 (fresh_block [None; Some x07; Some x09] (empty_heap 8)) =
  Ok () (fresh_block [None; Some x07; Some x09] (empty_heap 8)).
Proof.
  refine (ZeroMemory_zeroes byte 1 [None; Some x07; Some x09] 2
            (fresh_block [None; Some x07; Some x09] (empty_heap 8)) _ _ _ _);
    by vm_compute.
Defined.

End witnesses.

End CNIMemoryHelper.
