(* ===== verification/CArray.v ===== *)
(** * CArray: the struct [CArray<T>]

    [CArray<T>] ([src/cyh/cni.hpp], lines 46 to 58) is a block pointer and
    an element count.  The union of [m_block] and [m_data] is one pointer
    read at two types, so the record has the field [m_block] and [m_data] is
    a second name for it.  [CArray{}] is [default_CArray].

    [valid] is the invariant that the specification states of a flat array
    (a positive length implies a live block that is large enough); [holds]
    says which elements the block stores; [terminated] says that one zero
    element follows them.

    [begin] and [end_] make the struct a range: [traverse] is the loop that
    a range-based [for] over a [CArray] runs, with fuel for the number of
    steps, and the theorem of this file is that it ends after [size()] steps
    with the elements that the array holds. *)

From Stdlib Require Import Strings.Byte.
From S2P Require Import Prelude Outcome Word Primitive Memory.
#[local] Open Scope Z_scope.

Record CArray (T : Type) : Type := {
  m_block : ptr;
  m_length : Z
}.
Arguments m_block {T} _.
Arguments m_length {T} _.

#[export] Instance CArray_eq_dec T : EqDecision (CArray T).
Proof. solve_decision. Defined.

(** [UTF8String], [using UTF8String = CArray<char>]. *)
Definition UTF8String : Type := CArray byte.

Section CArray.
Context {T : Type} `{Primitive T}.
Implicit Types (a : CArray T) (h : heap) (l : list T).

(** The other member of the union. *)
Definition m_data a : ptr := m_block a.

(** [CArray<T>{}]: both members have default initialisers. *)
Definition default_CArray : CArray T := {| m_block := Null; m_length := 0 |}.

(** [constexpr size_t size() const] *)
Definition size a : Z := m_length a.

(** [constexpr T* begin() const] *)
Definition begin a : ptr := m_data a.

(** [constexpr T* end() const]: [begin() + size()], in elements. *)
Definition end_ a : ptr := ptr_add (begin a) (size a * sizeof T).

(** [for (T& x : a) visit(x);], the range-based [for] over a [CArray]: a
    pointer steps from [first = begin()] by one element until it equals
    [last = end()].  The result is the elements visited, or [None] when
    [fuel] steps did not reach [last]. *)
Fixpoint traverse (fuel : nat) (first last : ptr) : M heap (option (list T)) :=
  if decide (first = last) then mret (Some []) else
  match fuel with
  | O => mret None
  | S fuel =>
    bs ← memcpy_out first (sizeof T);
    rest ← traverse fuel (ptr_add first (sizeof T)) last;
    mret (cons (of_bytes bs) <$> rest)
  end.

(** The cells of the block of [a], when [a] points to the start of a live
    block. *)
Definition block_of a h : option (list cell) :=
  match m_block a with
  | Ptr b 0 => blocks h !! b
  | _ => None
  end.

(** The invariant of a flat array: the length is a count, and a positive
    length comes with a live block of at least that many elements. *)
Definition valid a h : Prop :=
  0 ≤ m_length a ∧
  (0 < m_length a →
   match block_of a h with
   | Some cs => sizeof T * m_length a ≤ Z.of_nat (length cs)
   | None => False
   end).

#[export] Instance valid_dec a h : Decision (valid a h).
Proof. unfold valid. destruct (block_of a h); apply _. Defined.

(** The block of [a] starts with the bytes of the elements [l], and [a]
    counts them. *)
Definition holds a h l : Prop :=
  m_length a = Z.of_nat (length l) ∧
  ∃ cs, block_of a h = Some cs ∧
        take (length (encode l)) cs = Some <$> encode l.

(** One zero element follows the [m_length a] elements of [a]. *)
Definition terminated a h : Prop :=
  ∃ cs, block_of a h = Some cs ∧
        slice (Z.to_nat (sizeof T * m_length a)) (Z.to_nat (sizeof T)) cs =
        replicate (Z.to_nat (sizeof T)) (Some x00).

Lemma size_default : size default_CArray = 0.
Proof. done. Qed.

Lemma begin_end_default : end_ default_CArray = begin default_CArray.
Proof. done. Qed.

Lemma valid_default h : valid default_CArray h.
Proof. split; simpl; lia. Qed.

(** The distance from [begin] to [end] is the size in bytes. *)
Lemma end_begin a b o :
  begin a = Ptr b o → end_ a = Ptr b (o + size a * sizeof T).
Proof. unfold end_. by intros ->. Qed.

Lemma holds_valid a h l : holds a h l → valid a h.
Proof.
  intros (Hlen & cs & Hcs & Htake). split; [lia|]. intros _. rewrite Hcs.
  apply (f_equal length) in Htake. rewrite length_take, length_fmap in Htake.
  pose proof (length_encode l). lia.
Qed.

(** ** Stability

    What an array holds depends on its own block only: it is kept in every
    heap that [extends] the one in which it was established. *)
Lemma block_of_extends a h h' cs :
  extends h h' → block_of a h = Some cs → block_of a h' = Some cs.
Proof.
  unfold block_of. intros Hext. destruct (m_block a) as [|b [| |]]; try done.
  apply Hext.
Qed.

#[export] Instance holds_extends a : Proper (extends ==> eq ==> impl) (holds a).
Proof.
  intros h h' Hext l ? <- (Hlen & cs & Hcs & Htake). split; [done|].
  exists cs. eauto using block_of_extends.
Qed.

#[export] Instance terminated_extends a : Proper (extends ==> impl) (terminated a).
Proof. intros h h' Hext (cs & Hcs & Hz). exists cs. eauto using block_of_extends. Qed.

#[export] Instance valid_extends a : Proper (extends ==> impl) (valid a).
Proof.
  intros h h' Hext [Hlen Hv]. split; [done|]. intros Hpos. specialize (Hv Hpos).
  destruct (block_of a h) as [cs|] eqn:Hcs; [|done].
  by rewrite (block_of_extends _ _ _ _ Hext Hcs).
Qed.

(** ** The range from [begin()] to [end()] *)

(** In an array that holds the elements
    [l], the element of index [i] is read at [begin() + i], for every index
    below [size()], and [end()] is the address just after the bytes of the
    last element. *)
Lemma element_at a h l i x :
  holds a h l → l !! i = Some x →
  memcpy_out (ptr_add (begin a) (Z.of_nat i * sizeof T)) (sizeof T) h =
    Ok (to_bytes x) h ∧
  end_ a = ptr_add (begin a) (Z.of_nat (length (encode l))).
Proof.
  intros (Hlen & cs & Hcs & Htake) Hi.
  unfold end_, begin, m_data, size, block_of in *.
  destruct (m_block a) as [|b [| |]]; try done. simpl.
  pose proof (length_encode l) as Henc. pose proof sizeof_pos as Hpos.
  pose proof (lookup_lt_Some _ _ _ Hi) as Hlt.
  apply (f_equal length) in Htake as Hl. rewrite length_take, length_fmap in Hl.
  split; [|f_equal; lia].
  eapply memcpy_out_Ok; [done|unfold in_bounds; nia|].
  rewrite <- (slice_take _ _ (length (encode l))) by nia.
  rewrite Htake, slice_fmap. f_equal.
  replace (Z.to_nat (0 + Z.of_nat i * sizeof T))
    with (i * Z.to_nat (sizeof T))%nat by nia.
  by apply slice_encode.
Qed.

Lemma traverse_eq fuel first last :
  traverse fuel first last =
  if decide (first = last) then mret (Some []) else
  match fuel with
  | O => mret None
  | S fuel =>
    bs ← memcpy_out first (sizeof T);
    rest ← traverse fuel (ptr_add first (sizeof T)) last;
    mret (cons (of_bytes bs) <$> rest)
  end.
Proof. by destruct fuel. Qed.

Lemma holds_begin a h l : holds a h l → ∃ b, begin a = Ptr b 0.
Proof.
  intros (_ & cs & Hcs & _). unfold block_of, begin, m_data in *.
  destruct (m_block a) as [|b [| |]]; try done. by exists b.
Qed.

(** The traversal of the elements that follow the first [length l1]. *)
Lemma traverse_suffix a h l1 l2 fuel :
  holds a h (l1 ++ l2) → (length l2 ≤ fuel)%nat →
  traverse fuel (ptr_add (begin a) (Z.of_nat (length l1) * sizeof T)) (end_ a) h =
  Ok (Some l2) h.
Proof.
  revert l1 fuel. induction l2 as [|x l2 IH]; intros l1 fuel Hh Hfuel.
  { rewrite traverse_eq, decide_True; [done|]. destruct Hh as [Hlen _].
    unfold end_, size. by rewrite Hlen, app_nil_r. }
  destruct (holds_begin _ _ _ Hh) as [b Hb]. pose proof Hh as [Hlen _].
  pose proof sizeof_pos. destruct fuel as [|fuel]; [simpl in Hfuel; lia|].
  rewrite traverse_eq, decide_False.
  2: { unfold end_, size. rewrite Hb, Hlen, length_app. simpl. intros [= ?]. nia. }
  destruct (element_at a h (l1 ++ x :: l2) (length l1) x Hh) as [Hx _];
    [by apply list_lookup_middle|].
  rewrite (bind_Ok _ _ _ _ _ Hx), ptr_add_add.
  replace (Z.of_nat (length l1) * sizeof T + sizeof T)
    with (Z.of_nat (length (l1 ++ [x])) * sizeof T) by (rewrite length_app; simpl; lia).
  rewrite (bind_Ok _ _ _ _ _ (IH (l1 ++ [x]) fuel ltac:(by rewrite <- app_assoc)
                                 ltac:(simpl in Hfuel; lia))).
  by rewrite of_to_bytes.
Qed.

(** ** Theorems *)

(** C34 (a traversal ends): the loop that steps a pointer from [begin()] to
    [end()] of an array that holds the elements [l] ends after [size()]
    steps, for any fuel of at least that many steps, without leaving the
    block, and has visited exactly the elements of [l], in order. *)
Theorem traverse_terminates a h l fuel :
  holds a h l → (length l ≤ fuel)%nat →
  traverse fuel (begin a) (end_ a) h = Ok (Some l) h.
Proof.
  intros Hh Hfuel. rewrite <- (ptr_add_0 (begin a)).
  by apply (traverse_suffix a h [] l).
Qed.

End CArray.

Arguments default_CArray {T}.
#[export] Hint Resolve valid_default holds_valid : cni.

(** Traversing the array of the string [ab] with fuel for five steps. *)
Lemma traverse_terminates_witness :
  traverse (T := byte) 5 (Ptr 1 0) (Ptr 1 2)
    (fresh_block [Some x61; Some x62; Some x00] (empty_heap 16)) =
  Ok (Some [x61; x62]) (fresh_block [Some x61; Some x62; Some x00] (empty_heap 16)).
Proof.
  refine (traverse_terminates (T := byte) {| m_block := Ptr 1 0; m_length := 2 |}
            (fresh_block [Some x61; Some x62; Some x00] (empty_heap 16))
            [x61; x62] 5 _ _); [|simpl; lia].
  split; [done|]. by exists [Some x61; Some x62; Some x00].
Defined.
