(* ===== verification/Container.v ===== *)
(** * Container: the managed standard containers, as far as the program uses them

    [CNIConvert] is generic in the container: it needs [size()], a
    contiguous [data()], and for the way back [resize()].  A container of
    the model is the list of its elements.  What depends on the kind of
    container is kept: [data()] of an empty [std::vector] may be a null
    pointer, while [data()] of a [std::basic_string] never is and has a
    zero element after the last one.

    The storage of a managed container belongs to the C++ runtime; it is not
    part of the unmanaged heap of [Memory].  Whether the runtime can supply
    the storage that [resize()] needs is a parameter of the model, the class
    [Managed]: capacities, small-string buffers and the state of the managed
    allocator are not the program's, so the theorems hold for every such
    allocator and say which requests they need it to grant. *)

From Stdlib Require Import Strings.Byte.
From S2P Require Import Prelude Outcome Word Primitive Memory.
#[local] Open Scope Z_scope.

(** The class templates that [CNIConvert] is instantiated with. *)
Inductive container_kind : Type := std_vector | std_string.

#[export] Instance container_kind_eq_dec : EqDecision container_kind.
Proof. solve_decision. Defined.

(** The allocator behind the standard containers: the sizes, in bytes, of
    the requests that it grants.  A request that it refuses makes the
    container operation leave by [std::bad_alloc]. *)
Class Managed : Type := { managed_grants : Z → bool }.

(** A managed side that never runs out of memory. *)
Definition plenty : Managed := {| managed_grants := λ _, true |}.

(** A managed side that supplies at most [limit] bytes to a request. *)
Definition limited (limit : Z) : Managed :=
  {| managed_grants := λ n, bool_decide (n ≤ limit) |}.

Section container.
Context {arch : Arch} {managed : Managed} {T : Type} `{Primitive T}.
Implicit Types (c : list T) (k : container_kind).

(** [c.size()], a [size_t]. *)
Definition std_size c : Z := nuint (Z.of_nat (length c)).

(** What [c.data()] points to: [None] for a null pointer, else the bytes
    that may be read there. *)
Definition std_data k c : option (list byte) :=
  match k, c with
  | std_vector, [] => None
  | std_vector, _ => Some (encode c)
  | std_string, _ => Some (encode c ++ to_bytes (zero_value T))
  end.

(** [max_size()]: the largest count of elements whose bytes a pointer
    difference can measure. *)
Definition max_size : Z := (nuint_modulus / 2 - 1) / sizeof T.

(** [result.resize(n)] on an empty container: [n] value-initialised
    elements; [std::length_error] when [n] exceeds [max_size()], and
    [std::bad_alloc] when the storage of [n] elements is refused. *)
Definition resize (n : Z) : M heap (list T) :=
  if decide (n ≤ max_size)
  then if managed_grants (sizeof T * n)
       then mret (replicate (Z.to_nat n) (zero_value T))
       else throw bad_alloc
  else throw length_error.

(** A container that exists holds at most [max_size()] elements. *)
Definition representable c : Prop := Z.of_nat (length c) ≤ max_size.

(** The managed side supplies the storage of a copy of [c]. *)
Definition granted c : Prop :=
  managed_grants (sizeof T * Z.of_nat (length c)) = true.

#[export] Instance granted_dec c : Decision (granted c).
Proof. unfold granted. apply _. Defined.

#[export] Instance representable_dec c : Decision (representable c).
Proof. unfold representable. apply _. Defined.

Lemma max_size_bytes n : 0 ≤ n ≤ max_size → sizeof T * n < nuint_modulus / 2.
Proof.
  intros [? Hn]. unfold max_size in Hn. pose proof sizeof_pos.
  pose proof (Z.mul_div_le (nuint_modulus / 2 - 1) (sizeof T) sizeof_pos).
  apply (Z.mul_le_mono_nonneg_l _ _ (sizeof T)) in Hn; lia.
Qed.

(** The bytes of a representable container are counted without wrap-around,
    also with one more element. *)
Lemma representable_is_nuint c : representable c → is_nuint (Z.of_nat (length c)).
Proof.
  intros Hc. pose proof (max_size_bytes _ (conj (Nat2Z.is_nonneg _) Hc)).
  pose proof sizeof_pos. pose proof nuint_modulus_even.
  unfold is_nuint. nia.
Qed.

Lemma std_size_representable c : representable c → std_size c = Z.of_nat (length c).
Proof. intros. by apply nuint_small, representable_is_nuint. Qed.

Lemma representable_bytes c :
  representable c → is_nuint (sizeof T * Z.of_nat (length c)).
Proof.
  intros Hc. pose proof (max_size_bytes _ (conj (Nat2Z.is_nonneg _) Hc)).
  pose proof sizeof_pos. pose proof nuint_modulus_even.
  unfold is_nuint. nia.
Qed.

Lemma std_size_range c : is_nuint (std_size c).
Proof. apply nuint_is_nuint. Qed.

Lemma std_size_le c : std_size c ≤ Z.of_nat (length c).
Proof. apply nuint_le. lia. Qed.

Lemma std_data_nonempty k c : c ≠ [] → is_Some (std_data k c).
Proof. destruct k, c; naive_solver. Qed.

Lemma std_data_string c : std_data std_string c = Some (encode c ++ to_bytes (zero_value T)).
Proof. by destruct c. Qed.

(** At least the bytes of the elements can be read at [data()]. *)
Lemma std_data_length k c bs :
  std_data k c = Some bs → Z.of_nat (length (encode c)) ≤ Z.of_nat (length bs).
Proof.
  destruct k, c; intros [= <-]; rewrite ?encode_cons, ?length_app; simpl; lia.
Qed.

Lemma std_data_take k c bs :
  std_data k c = Some bs → take (length (encode c)) bs = encode c.
Proof.
  destruct k; [destruct c; [done|]|rewrite std_data_string]; intros [= <-].
  - apply firstn_all.
  - apply take_app_length.
Qed.

Lemma resize_Ok n h :
  n ≤ max_size → managed_grants (sizeof T * n) = true →
  resize n h = Ok (replicate (Z.to_nat n) (zero_value T)) h.
Proof. intros ? Hg. unfold resize. case_decide; [by rewrite Hg|done]. Qed.

Lemma resize_Throw n h : max_size < n → resize n h = Throw length_error h.
Proof. intros. unfold resize. case_decide; [lia|done]. Qed.

Lemma resize_refused n h :
  n ≤ max_size → managed_grants (sizeof T * n) = false →
  resize n h = Throw bad_alloc h.
Proof. intros ? Hg. unfold resize. case_decide; [by rewrite Hg|done]. Qed.

(** [resize] leaves the unmanaged heap alone, whatever it does. *)
Lemma resize_heap n h :
  match resize n h with
  | Ok _ h' | Throw _ h' => h' = h
  | Undef => False
  end.
Proof. unfold resize. case_decide; [|done]. by destruct (managed_grants _). Qed.

End container.

#[export] Hint Resolve std_size_range representable_is_nuint representable_bytes : cni.
