(* ===== verification/Convert.v ===== *)
(** * Convert: the class [CNIConvert]

    One definition per method of [CNIConvert] ([src/cyh/cni.hpp], lines 62
    to 111).  [to_primitive_c_array] copies a container into a fresh block,
    with one zero element after it on request; [to_std_container] copies a
    block back into a container; [ToCArray], [ToCNIString] and [ToCppString]
    are the public entry points.  A pointer argument that may be null is an
    [option]. *)

From Stdlib Require Import Strings.Byte.
From S2P Require Import Prelude Outcome Word Primitive Memory MemoryHelper CArray Container.
#[local] Open Scope Z_scope.

Module CNIConvert.
Import CNIMemoryHelper.

Section convert.
Context {arch : Arch} {managed : Managed} {T : Type} `{Primitive T}.
Implicit Types (c : list T) (k : container_kind) (h : heap) (a : CArray T).

(** [template<class TContainer> static CArray<...>
     to_primitive_c_array(const TContainer* p_container, bool add_terminator)] *)
Definition to_primitive_c_array k (p_container : option (list T))
    (add_terminator : bool) : M heap (CArray T) :=
  match p_container with
  | None => mret default_CArray
  | Some c =>
    let elem_count := std_size c in
    let elem_size := sizeof T in
    block ← (if add_terminator
             then Allocate (nuint_mul elem_size (nuint_add elem_count 1))
             else Allocate (nuint_mul elem_size elem_count));
    if decide (block = Null) then mret default_CArray else
    memcpy_in block (std_data k c) (nuint_mul elem_size elem_count);;
    let result := {| m_block := block; m_length := elem_count |} in
    (if add_terminator
     then memset (ptr_add (m_data result) (elem_count * elem_size)) 0 elem_size
     else mret ());;
    mret result
  end.

(** [template<...> static StdContainer<T, Args...>
     to_std_container(const CArray<T>* c_array, StdContainer<T, Args...>* tp)].
    The parameter [tp] only selects the instance and is not read.  The
    elements of the result are those of the resized container after
    [memcpy] has overwritten the first bytes of its storage. *)
Definition to_std_container (c_array : option (CArray T)) : M heap (list T) :=
  match c_array with
  | None => mret []
  | Some a =>
    if decide (m_block a = Null ∨ m_length a = 0) then mret [] else
    result ← resize (m_length a);
    bs ← memcpy_out (m_block a) (nuint_mul (m_length a) (sizeof T));
    mret (decode (length result) (bs ++ drop (length bs) (encode result)))
  end.

(** [static CArray<T> ToCArray(const StdContainer<T, Args...>& cpp_vector)] *)
Definition ToCArray k (cpp_vector : list T) : M heap (CArray T) :=
  to_primitive_c_array k (Some cpp_vector) false.

(** ** What the conversions are expected to produce *)

(** The bytes that a conversion allocates. *)
Definition total_bytes (t : bool) c : Z :=
  sizeof T * (Z.of_nat (length c) + (if t then 1 else 0)).

(** The products of the conversion do not wrap around. *)
Definition fits (t : bool) c : Prop := total_bytes t c < nuint_modulus.

#[export] Instance fits_dec t c : Decision (fits t c).
Proof. unfold fits. apply _. Defined.

(** The cells of the block that a conversion builds. *)
Definition image (t : bool) c : list cell :=
  (Some <$> encode c) ++
  (if t then replicate (Z.to_nat (sizeof T)) (Some x00) else []).

(** The size that the conversion asks the allocator for, as the machine
    computes it. *)
Definition alloc_size (t : bool) c : Z :=
  if t then nuint_mul (sizeof T) (nuint_add (std_size c) 1)
  else nuint_mul (sizeof T) (std_size c).

(** The specification of a conversion to a flat array, from the heap [h]:
    either nothing is produced and the heap is as it was, which happens
    only when there is nothing to copy or the heap cannot supply the bytes,
    or the result owns a block that holds the elements, followed by a zero
    element when a terminator was asked for, that block is new, every block
    of [h] is untouched, and the budget has paid for exactly the bytes of
    the block. *)
Inductive converts (t : bool) c h : CArray T → heap → Prop :=
| converts_nothing :
    total_bytes t c = 0 ∨ avail h < total_bytes t c →
    converts t c h default_CArray h
| converts_copy a h' :
    holds a h' c → (t = true → terminated a h') →
    block_of a h = None → extends h h' → heap_wf h' →
    avail h' = avail h - total_bytes t c →
    converts t c h a h'.

End convert.

(** [static UTF8String ToCNIString(const std::string& str)] *)
Definition ToCNIString {arch : Arch} (str : list byte) : M heap UTF8String :=
  to_primitive_c_array std_string (Some str) true.

(** [static std::string ToCppString(const UTF8String& u8str)] *)
Definition ToCppString {arch : Arch} {managed : Managed} (u8str : UTF8String) :
    M heap (list byte) :=
  to_std_container (Some u8str).

Section convert_lemmas.
Context {arch : Arch} {managed : Managed} {T : Type} `{Primitive T}.
Implicit Types (c : list T) (k : container_kind) (h : heap) (a : CArray T).

Lemma length_image t c : Z.of_nat (length (image t c)) = total_bytes t c.
Proof.
  unfold image, total_bytes. pose proof (length_encode c). pose proof sizeof_pos.
  destruct t; len.
Qed.

(** Under [fits] the counts of the conversion are the mathematical ones. *)
Lemma fits_counts t c :
  fits t c →
  std_size c = Z.of_nat (length c) ∧
  nuint_mul (sizeof T) (std_size c) = sizeof T * Z.of_nat (length c) ∧
  (if t then nuint_mul (sizeof T) (nuint_add (std_size c) 1)
   else nuint_mul (sizeof T) (std_size c)) = total_bytes t c.
Proof.
  unfold fits, total_bytes. intros Hfit. pose proof sizeof_pos.
  assert (Hsz : std_size c = Z.of_nat (length c)).
  { apply nuint_small. unfold is_nuint. destruct t; nia. }
  rewrite Hsz. split; [done|]. split.
  - apply nuint_mul_nowrap. unfold is_nuint. destruct t; nia.
  - destruct t.
    + rewrite nuint_add_nowrap by (unfold is_nuint; nia).
      apply nuint_mul_nowrap. unfold is_nuint. nia.
    + rewrite Z.add_0_r. apply nuint_mul_nowrap. unfold is_nuint. nia.
Qed.

(** *** [to_primitive_c_array], branch by branch *)

Lemma to_primitive_c_array_None k t h :
  to_primitive_c_array k None t h = Ok default_CArray h.
Proof. done. Qed.

(** The container is copied: the allocation succeeds. *)
Lemma to_primitive_c_array_Ok k c t h :
  fits t c → total_bytes t c ≠ 0 → total_bytes t c ≤ avail h →
  is_Some (std_data k c) →
  to_primitive_c_array k (Some c) t h =
  Ok {| m_block := Ptr (next_block h) 0; m_length := Z.of_nat (length c) |}
     (fresh_block (image t c) h).
Proof.
  intros Hfit Hnz Hav [src Hsrc].
  destruct (fits_counts t c Hfit) as (Hsz & Hmul & Htot).
  pose proof (length_encode c) as Henc. pose proof sizeof_pos as Hpos.
  pose proof (std_data_length _ _ _ Hsrc) as Hlen.
  pose proof (std_data_take _ _ _ Hsrc) as Htake.
  unfold to_primitive_c_array, image, total_bytes in *. cbn zeta.
  rewrite Hsz in *. rewrite Hsrc. destruct t.
  - rewrite Htot, Hmul, (bind_Ok _ _ _ _ _ (Allocate_Ok _ h Hnz Hav)).
    case_decide; [done|].
    erewrite bind_Ok; [|apply memcpy_in_fresh; lia]. cbn [m_data m_block ptr_add].
    replace (sizeof T * (Z.of_nat (length c) + 1) - sizeof T * Z.of_nat (length c))
      with (sizeof T) by lia.
    replace (Z.to_nat (sizeof T * Z.of_nat (length c))) with (length (encode c)) by lia.
    rewrite Htake.
    replace (0 + Z.of_nat (length c) * sizeof T)
      with (Z.of_nat (length (Some <$> encode c))) by len.
    by erewrite bind_Ok; [|apply memset_fresh_tail; lia].
  - rewrite Z.add_0_r in *.
    rewrite Hmul, (bind_Ok _ _ _ _ _ (Allocate_Ok _ h Hnz Hav)).
    case_decide; [done|].
    erewrite bind_Ok; [|apply memcpy_in_fresh; lia].
    replace (Z.to_nat (sizeof T * Z.of_nat (length c))) with (length (encode c)) by lia.
    by rewrite Htake, Z.sub_diag.
Qed.

(** The allocator cannot supply the block: the result is the empty array
    and the heap is as it was. *)
Lemma to_primitive_c_array_exhausted k c t h :
  fits t c → avail h < total_bytes t c →
  to_primitive_c_array k (Some c) t h = Ok default_CArray h.
Proof.
  intros Hfit Hav. destruct (fits_counts t c Hfit) as (_ & _ & Htot).
  unfold to_primitive_c_array. cbn zeta.
  assert (Halloc : (if t then Allocate (nuint_mul (sizeof T) (nuint_add (std_size c) 1))
                    else Allocate (nuint_mul (sizeof T) (std_size c))) h = Ok Null h).
  { destruct t; rewrite Htot; by apply Allocate_exhausted. }
  rewrite (bind_Ok _ _ _ _ _ Halloc). by case_decide.
Qed.

(** Nothing to copy and no terminator: no block is allocated. *)
Lemma to_primitive_c_array_nil k h :
  to_primitive_c_array k (Some []) false h = Ok default_CArray h.
Proof.
  unfold to_primitive_c_array. cbn zeta.
  replace (nuint_mul (sizeof T) (std_size [])) with 0.
  - rewrite (bind_Ok _ _ _ _ _ (Allocate_0 h)). by case_decide.
  - unfold std_size. simpl. unfold nuint. rewrite Z.mod_0_l by (pose proof nuint_modulus_pos; lia).
    by rewrite nuint_mul_0_r.
Qed.

(** A container that exists fits: its byte count is below half the range
    of [size_t], and one more element does not reach the other half. *)
Lemma representable_fits t c :
  representable c → sizeof T ≤ nuint_modulus / 2 → fits t c.
Proof.
  intros Hc Hsz. pose proof (max_size_bytes _ (conj (Nat2Z.is_nonneg _) Hc)).
  pose proof nuint_modulus_even. pose proof sizeof_pos.
  unfold fits, total_bytes. destruct t; lia.
Qed.

Lemma representable_fits_false c : representable c → fits false c.
Proof.
  intros Hrep. pose proof (representable_bytes c Hrep) as [].
  unfold fits, total_bytes. by rewrite Z.add_0_r.
Qed.

Lemma total_bytes_pos c : c ≠ [] → 0 < total_bytes false c.
Proof.
  intros. unfold total_bytes. pose proof sizeof_pos.
  destruct c; [done|]. simpl. lia.
Qed.

(** The array that a successful conversion returns holds the container. *)
Lemma fresh_block_holds t c h :
  holds {| m_block := Ptr (next_block h) 0; m_length := Z.of_nat (length c) |}
        (fresh_block (image t c) h) c.
Proof.
  split; [done|]. exists (image t c). split.
  - unfold block_of. simpl. apply blocks_fresh_block_same.
  - unfold image. rewrite take_app_length'; [done|len].
Qed.

Lemma fresh_block_terminated c h :
  terminated {| m_block := Ptr (next_block h) 0; m_length := Z.of_nat (length c) |}
             (fresh_block (image true c) h).
Proof.
  exists (image true c). split.
  - unfold block_of. simpl. apply blocks_fresh_block_same.
  - unfold image. simpl. pose proof (length_encode c).
    replace (Z.to_nat (sizeof T * Z.of_nat (length c)))
      with (length (Some <$> encode c)) by len.
    rewrite slice_app_r. apply firstn_all2. len.
Qed.

(** *** [to_std_container], branch by branch *)

Lemma to_std_container_None h : to_std_container None h = Ok [] h.
Proof. done. Qed.

Lemma to_std_container_empty a h :
  m_block a = Null ∨ m_length a = 0 → to_std_container (Some a) h = Ok [] h.
Proof. intros. unfold to_std_container. by case_decide. Qed.

(** The elements that the array holds are returned, and the heap is not
    changed. *)
Lemma to_std_container_holds a h c :
  holds a h c → c ≠ [] → representable c → granted c →
  to_std_container (Some a) h = Ok c h.
Proof.
  intros (Hlen & cs & Hcs & Htake) Hne Hrep Hg. unfold to_std_container, block_of in *.
  destruct (m_block a) as [|b [| |]] eqn:Hb; try done.
  assert (0 < Z.of_nat (length c)) by (destruct c; [done|simpl; lia]).
  case_decide as Hd; [destruct Hd; [done|lia]|].
  rewrite Hlen, (bind_Ok _ _ _ _ _ (resize_Ok _ h Hrep Hg)).
  pose proof (length_encode c) as Henc.
  rewrite nuint_mul_comm, nuint_mul_nowrap by by apply representable_bytes.
  apply (f_equal length) in Htake as Hl. rewrite length_take, length_fmap in Hl.
  erewrite bind_Ok; [|eapply (memcpy_out_Ok _ _ _ _ (encode c)); [done|unfold in_bounds; lia|]].
  - cbn [mret M_ret]. f_equal. rewrite length_replicate, Nat2Z.id.
    rewrite drop_ge by (rewrite !length_encode_nat, length_replicate; lia).
    by rewrite app_nil_r, decode_encode.
  - unfold slice. rewrite drop_0. rewrite <- Htake. f_equal. lia.
Qed.

(** Reading back the array that a conversion has just built. *)
Lemma to_std_container_fresh t c h :
  representable c → granted c →
  to_std_container
    (Some {| m_block := Ptr (next_block h) 0; m_length := Z.of_nat (length c) |})
    (fresh_block (image t c) h) = Ok c (fresh_block (image t c) h).
Proof.
  intros Hrep Hg. destruct (decide (c = [])) as [->|Hne].
  - apply to_std_container_empty. by right.
  - apply to_std_container_holds; [apply fresh_block_holds|done..].
Qed.

(** The existing blocks of a well-formed heap are those of the heap after
    a fresh block is added. *)
Lemma fresh_block_frame cs h b bs :
  heap_wf h → blocks h !! b = Some bs → blocks (fresh_block cs h) !! b = Some bs.
Proof.
  intros Hwf Hb. rewrite blocks_fresh_block_ne; [done|].
  intros ->. by rewrite (heap_wf_fresh _ Hwf) in Hb.
Qed.

(** A terminator is asked for, and [data()] of the container is null: the
    program hands a null source to [memcpy]. *)
Lemma to_primitive_c_array_null_data k c t h :
  fits t c → total_bytes t c ≠ 0 → total_bytes t c ≤ avail h →
  std_data k c = None →
  to_primitive_c_array k (Some c) t h = Undef.
Proof.
  intros Hfit Hnz Hav Hsrc. destruct (fits_counts t c Hfit) as (_ & _ & Htot).
  unfold to_primitive_c_array. cbn zeta. rewrite Hsrc.
  assert (Halloc : (if t then Allocate (nuint_mul (sizeof T) (nuint_add (std_size c) 1))
                    else Allocate (nuint_mul (sizeof T) (std_size c))) h =
                   Ok (Ptr (next_block h) 0) (add_block (total_bytes t c) h)).
  { destruct t; rewrite Htot; by apply Allocate_Ok. }
  rewrite (bind_Ok _ _ _ _ _ Halloc). by case_decide.
Qed.

Lemma total_bytes_0 t c : total_bytes t c = 0 ↔ t = false ∧ c = [].
Proof.
  unfold total_bytes. pose proof sizeof_pos. split.
  - intros. destruct t, c; simpl in *; try done; nia.
  - intros [-> ->]. simpl. lia.
Qed.

(** The result of [to_primitive_c_array] on every branch. *)
Lemma to_primitive_c_array_cases k c t h :
  fits t c →
  to_primitive_c_array k (Some c) t h =
  if decide (total_bytes t c = 0 ∨ avail h < total_bytes t c)
  then Ok default_CArray h
  else match std_data k c with
       | Some _ => Ok {| m_block := Ptr (next_block h) 0;
                         m_length := Z.of_nat (length c) |}
                      (fresh_block (image t c) h)
       | None => Undef
       end.
Proof.
  intros Hfit. case_decide as Hd.
  - destruct Hd as [[-> ->]%total_bytes_0|?];
      [apply to_primitive_c_array_nil|by apply to_primitive_c_array_exhausted].
  - destruct (std_data k c) as [src|] eqn:Hsrc.
    + apply to_primitive_c_array_Ok; [done|lia|lia|by rewrite Hsrc].
    + apply to_primitive_c_array_null_data; [done|lia|lia|done].
Qed.

(** Without any assumption on the sizes: a conversion that returns has
    either changed nothing or added one block, of the size it asked for. *)
Lemma to_primitive_c_array_inv k p t h a h' :
  to_primitive_c_array k p t h = Ok a h' →
  (a = default_CArray ∧ h' = h) ∨
  (∃ c cs, p = Some c ∧
           a = {| m_block := Ptr (next_block h) 0; m_length := std_size c |} ∧
           Z.of_nat (length cs) = alloc_size t c ∧
           alloc_size t c ≤ avail h ∧ h' = fresh_block cs h).
Proof.
  unfold to_primitive_c_array. destruct p as [c|]; [|intros [= <- <-]; by left].
  cbn zeta. replace (if t then Allocate _ else Allocate _)
    with (Allocate (alloc_size t c)) by by destruct t.
  assert (0 ≤ alloc_size t c) by (destruct t; apply nuint_is_nuint).
  destruct (Allocate_cases (alloc_size t c) h) as [HA|(_ & Hav & HA)];
    rewrite (bind_Ok _ _ _ _ _ HA).
  { case_decide; [|done]. intros [= <- <-]. by left. }
  case_decide; [done|]. rewrite add_block_fresh_block by done.
  intros ([] & h1 & (bs & _ & _ & Hst)%memcpy_in_inv & Hk)%bind_Ok_inv.
  apply store_bytes_blocks in Hst as (b & o & cs & cs1 & [= <- <-] & Hb & Hl1 & ->).
  rewrite blocks_fresh_block_same in Hb. injection Hb as <-.
  rewrite set_block_fresh_block in Hk by done.
  apply bind_Ok_inv in Hk as ([] & h2 & Hterm & [= <- <-]).
  right. exists c. destruct t.
  - apply memset_inv in Hterm as [_ Hst].
    apply store_bytes_blocks in Hst as (b & o & cs & cs2 & [= <- <-] & Hb & Hl2 & ->).
    rewrite blocks_fresh_block_same in Hb. injection Hb as <-.
    rewrite set_block_fresh_block by done. exists cs2. split_and!; [done..| |done|done].
    rewrite Hl2, Hl1. len.
  - injection Hterm as <-. exists cs1. split_and!; [done..| |done|done].
    rewrite Hl1. len.
Qed.

(** Reading through a pointer whose block is gone. *)
Lemma to_std_container_stale a h b o :
  m_block a = Ptr b o → blocks h !! b = None → 0 < m_length a ≤ max_size →
  managed_grants (sizeof T * m_length a) = true →
  to_std_container (Some a) h = Undef.
Proof.
  intros Hp Hb [Hpos Hmax] Hg. unfold to_std_container. rewrite Hp.
  case_decide as Hd; [destruct Hd; [done|lia]|].
  rewrite (bind_Ok _ _ _ _ _ (resize_Ok _ h Hmax Hg)).
  apply bind_Undef. unfold memcpy_out. apply bind_Undef.
  unfold load_bytes. by rewrite Hb.
Qed.

(** The heap after a successful conversion meets the specification. *)
Lemma fresh_block_converts t c h :
  heap_wf h → total_bytes t c ≤ avail h →
  converts t c h
    {| m_block := Ptr (next_block h) 0; m_length := Z.of_nat (length c) |}
    (fresh_block (image t c) h).
Proof.
  intros Hwf Hav. pose proof (length_image t c) as Hlen. constructor.
  - apply fresh_block_holds.
  - intros ->. apply fresh_block_terminated.
  - unfold block_of. simpl. by apply heap_wf_fresh.
  - by apply extends_fresh_block.
  - apply heap_wf_fresh_block; [done|lia].
  - simpl. lia.
Qed.

Lemma std_data_None k c : std_data k c = None → c = [].
Proof.
  intros Hd. destruct c as [|x c]; [done|].
  by destruct (std_data_nonempty k (x :: c) ltac:(done)) as [? ?%(eq_None_ne_Some_1 _ _ Hd)].
Qed.

(** An array that claims more elements than a container can have makes
    [resize] throw. *)
Lemma to_std_container_Throw a h :
  m_block a ≠ Null → max_size < m_length a →
  to_std_container (Some a) h = Throw length_error h.
Proof.
  intros Hb Hlen. unfold to_std_container. pose proof sizeof_pos.
  assert (0 ≤ max_size).
  { unfold max_size. apply Z.div_pos; [|done]. pose proof nuint_modulus_ge_2.
    pose proof nuint_modulus_even. lia. }
  case_decide as Hd; [destruct Hd; [done|lia]|].
  by rewrite (bind_Throw _ _ _ _ _ (resize_Throw _ h Hlen)).
Qed.

(** The managed side refuses the storage of the result: [resize] throws. *)
Lemma to_std_container_refused a h :
  m_block a ≠ Null → m_length a ≠ 0 → m_length a ≤ max_size →
  managed_grants (sizeof T * m_length a) = false →
  to_std_container (Some a) h = Throw bad_alloc h.
Proof.
  intros Hb Hnz Hlen Hg. unfold to_std_container.
  case_decide as Hd; [by destruct Hd|].
  by rewrite (bind_Throw _ _ _ _ _ (resize_refused _ h Hlen Hg)).
Qed.

(** [ToCArray] of a container that is not empty, when the heap can supply
    its bytes. *)
Lemma ToCArray_Ok k c h :
  c ≠ [] → representable c → total_bytes false c ≤ avail h →
  ToCArray k c h =
  Ok {| m_block := Ptr (next_block h) 0; m_length := Z.of_nat (length c) |}
     (fresh_block (image false c) h).
Proof.
  intros Hne Hrep Hav. pose proof (total_bytes_pos c Hne).
  apply to_primitive_c_array_Ok;
    [by apply representable_fits_false|lia|done|by apply std_data_nonempty].
Qed.

End convert_lemmas.

(** *** Strings *)
Section strings.
Context {arch : Arch} {managed : Managed}.
Implicit Types (str : list byte) (h : heap).

Lemma encode_char str : encode str = str.
Proof. induction str as [|b str IH]; [done|]. by rewrite encode_cons, IH. Qed.

Lemma image_string str : image true str = (Some <$> str) ++ [Some x00].
Proof. unfold image. by rewrite encode_char. Qed.

Lemma representable_string_fits str : representable str → fits true str.
Proof.
  intros. apply representable_fits; [done|].
  pose proof nuint_modulus_ge_2. pose proof nuint_modulus_even.
  change (sizeof byte) with 1. lia.
Qed.

Lemma ToCNIString_Ok str h :
  representable str → Z.of_nat (length str) + 1 ≤ avail h →
  ToCNIString str h =
  Ok {| m_block := Ptr (next_block h) 0; m_length := Z.of_nat (length str) |}
     (fresh_block (image true str) h).
Proof.
  intros Hrep Hav. apply to_primitive_c_array_Ok.
  - by apply representable_string_fits.
  - unfold total_bytes. change (sizeof byte) with 1. lia.
  - unfold total_bytes. change (sizeof byte) with 1. lia.
  - by rewrite std_data_string.
Qed.

End strings.

(** ** Theorems *)

Section string_theorems.
Context {arch : Arch} {managed : Managed}.
Implicit Types (str : list byte) (h : heap).

(** C1 (round trip of text): for a string of at most [max_size()] bytes,
    when the heap can supply [length str + 1] bytes and the managed side the
    storage of the copy, converting the string to a [UTF8String] with
    [ToCNIString] and back with [ToCppString] returns the string itself,
    whatever bytes it holds (zero bytes included); the heap has gained
    exactly the block of the string and its terminator. *)
Theorem string_roundtrip str h :
  representable str → granted str → Z.of_nat (length str) + 1 ≤ avail h →
  (a ← ToCNIString str; ToCppString a) h =
  Ok str (fresh_block ((Some <$> str) ++ [Some x00]) h).
Proof.
  intros Hrep Hg Hav. rewrite (bind_Ok _ _ _ _ _ (ToCNIString_Ok str h Hrep Hav)).
  rewrite <- image_string. by apply to_std_container_fresh.
Qed.

(** C2 (terminator): [ToCNIString] returns a block that holds the bytes of
    the string followed by one zero byte, and a length that counts the bytes
    of the string only. *)
Theorem ToCNIString_terminated str h :
  representable str → Z.of_nat (length str) + 1 ≤ avail h →
  ToCNIString str h =
  Ok {| m_block := Ptr (next_block h) 0; m_length := Z.of_nat (length str) |}
     (fresh_block ((Some <$> str) ++ [Some x00]) h).
Proof. intros. rewrite <- image_string. by apply ToCNIString_Ok. Qed.

(** C7 (refinement, text): on a well-formed heap [ToCNIString] always
    returns, and what it returns meets the specification of a conversion
    with a terminator: nothing and an unchanged heap, only when the heap
    cannot supply the bytes, or a new block with the bytes of the string
    and a zero byte, every other block untouched. *)
Theorem ToCNIString_refines str h :
  heap_wf h → representable str →
  ∃ a h', ToCNIString str h = Ok a h' ∧ converts true str h a h'.
Proof.
  intros Hwf Hrep. unfold ToCNIString.
  rewrite to_primitive_c_array_cases by by apply representable_string_fits.
  case_decide; [eexists _, _; split; [done|by constructor]|].
  rewrite std_data_string. eexists _, _. split; [done|].
  apply fresh_block_converts; [done|lia].
Qed.

(** C29 (allocation failure, text): when the heap cannot supply the bytes of
    the string and its terminator, [ToCNIString] returns the empty array and
    leaves the heap as it was. *)
Theorem ToCNIString_exhausted str h :
  representable str → avail h < Z.of_nat (length str) + 1 →
  ToCNIString str h = Ok default_CArray h.
Proof.
  intros Hrep Hav. apply to_primitive_c_array_exhausted.
  - by apply representable_string_fits.
  - unfold total_bytes. change (sizeof byte) with 1. lia.
Qed.

(** C22 (release): on a well-formed heap, a string that is converted and
    whose block is then passed to [Free] leaves the blocks and the budget of
    the heap exactly as they were: the conversion allocates nothing else. *)
Theorem ToCNIString_release str h :
  heap_wf h → representable str → Z.of_nat (length str) + 1 ≤ avail h →
  (a ← ToCNIString str; Free (m_block a)) h =
  Ok () (Heap (blocks h) (Pos.succ (next_block h)) (avail h)).
Proof.
  intros Hwf Hrep Hav. rewrite (bind_Ok _ _ _ _ _ (ToCNIString_Ok str h Hrep Hav)).
  cbn [m_block]. rewrite (Free_live _ _ _ (blocks_fresh_block_same _ h)).
  by rewrite remove_fresh_block.
Qed.

(** C27 (use after release): converting a string that is not empty back
    from an array whose block has been freed is undefined behaviour. *)
Theorem use_after_free_undefined str h :
  representable str → granted str → str ≠ [] → Z.of_nat (length str) + 1 ≤ avail h →
  (a ← ToCNIString str; Free (m_block a);; ToCppString a) h = Undef.
Proof.
  intros Hrep Hg Hne Hav. rewrite (bind_Ok _ _ _ _ _ (ToCNIString_Ok str h Hrep Hav)).
  cbn [m_block]. rewrite (bind_Ok _ _ _ _ _ (Free_live _ _ _ (blocks_fresh_block_same _ h))).
  eapply to_std_container_stale; [done|apply blocks_remove_block_same| |done].
  simpl. split; [destruct str; [done|simpl; lia]|done].
Qed.

(** C35 (the empty string owns a block): [ToCNIString] of the empty string
    does not return the empty array: it returns length [0] with a block of
    one zero byte, which the caller has to free. *)
Theorem ToCNIString_empty h :
  1 ≤ avail h →
  ToCNIString [] h =
  Ok {| m_block := Ptr (next_block h) 0; m_length := 0 |}
     (fresh_block [Some x00] h).
Proof.
  intros Hav. rewrite ToCNIString_Ok; [done| |simpl; lia].
  unfold representable. simpl. apply Z.div_pos; [|done].
  pose proof nuint_modulus_ge_2. pose proof nuint_modulus_even. lia.
Qed.

(** C28 (exceptions can leave ToCppString): an array with a block and a
    length above [max_size()] makes [ToCppString] leave by
    [std::length_error], and an array whose copy the managed side refuses
    to store makes it leave by [std::bad_alloc]: both come from [resize],
    which no handler surrounds.  The heap is unchanged. *)
Theorem ToCppString_throws (u : UTF8String) h :
  m_block u ≠ Null → m_length u ≠ 0 →
  (max_size (T := byte) < m_length u → ToCppString u h = Throw length_error h) ∧
  (m_length u ≤ max_size (T := byte) → managed_grants (m_length u) = false →
   ToCppString u h = Throw bad_alloc h).
Proof.
  intros Hb Hnz. split; [by apply to_std_container_Throw|].
  intros Hle Hg. apply to_std_container_refused; [done..|].
  change (sizeof byte) with 1. by rewrite Z.mul_1_l.
Qed.

End string_theorems.

Section container_theorems.
Context {arch : Arch} {managed : Managed} {T : Type} `{Primitive T}.
Implicit Types (c : list T) (k : container_kind) (h : heap) (a : CArray T).

(** C3 (round trip of containers): for every primitive element type and
    every container of at most [max_size()] elements, when the heap can
    supply the bytes of the elements and the managed side the storage of the
    copy, converting the container with [ToCArray] and back with
    [to_std_container] returns the container.  An empty container allocates
    nothing; another one adds the block of its bytes to the heap. *)
Theorem container_roundtrip k c h :
  representable c → granted c → total_bytes false c ≤ avail h →
  (a ← ToCArray k c; to_std_container (Some a)) h =
  Ok c (if decide (c = []) then h else fresh_block (image false c) h).
Proof.
  intros Hrep Hg Hav. case_decide as Hc.
  - subst c. unfold ToCArray.
    by rewrite (bind_Ok _ _ _ _ _ (to_primitive_c_array_nil k h)).
  - rewrite (bind_Ok _ _ _ _ _ (ToCArray_Ok k c h Hc Hrep Hav)).
    by apply to_std_container_fresh.
Qed.

(** C4 (allocation failure): when the heap cannot supply the bytes of the
    container, [ToCArray] returns the empty array, with a null block and
    length [0], and leaves the heap as it was: no partial block exists. *)
Theorem ToCArray_exhausted k c h :
  representable c → avail h < total_bytes false c →
  ToCArray k c h = Ok default_CArray h.
Proof.
  intros Hrep Hav.
  by apply to_primitive_c_array_exhausted; [apply representable_fits_false|].
Qed.

(** C5 (copy): [ToCArray] of a container that is not empty returns a fresh
    block that holds exactly the bytes of its elements, in order, and a
    length that is the number of elements. *)
Theorem ToCArray_copies k c h :
  c ≠ [] → representable c → total_bytes false c ≤ avail h →
  ToCArray k c h =
  Ok {| m_block := Ptr (next_block h) 0; m_length := Z.of_nat (length c) |}
     (fresh_block (Some <$> encode c) h).
Proof.
  intros Hne Hrep Hav. rewrite ToCArray_Ok by done.
  unfold image. by rewrite app_nil_r.
Qed.

(** C6 (refinement, containers): on a well-formed heap [ToCArray] always
    returns, for every primitive element type and every container, and what
    it returns meets the specification of a conversion without terminator:
    nothing and an unchanged heap, only when the container is empty or the
    heap cannot supply the bytes, or a new block with the bytes of the
    elements, every other block untouched. *)
Theorem ToCArray_refines k c h :
  heap_wf h → representable c →
  ∃ a h', ToCArray k c h = Ok a h' ∧ converts false c h a h'.
Proof.
  intros Hwf Hrep. unfold ToCArray.
  rewrite to_primitive_c_array_cases by by apply representable_fits_false.
  case_decide as Hd; [eexists _, _; split; [done|by constructor]|].
  destruct (std_data k c) as [src|] eqn:Hsrc.
  - eexists _, _. split; [done|]. apply fresh_block_converts; [done|lia].
  - apply std_data_None in Hsrc as ->. destruct Hd. left. by apply total_bytes_0.
Qed.

(** C30 (no spurious failure): [ToCArray] returns the empty array only when
    the container is empty or the heap cannot supply its bytes. *)
Theorem ToCArray_empty_only_if k c h h' :
  representable c → ToCArray k c h = Ok default_CArray h' →
  c = [] ∨ avail h < total_bytes false c.
Proof.
  intros Hrep. unfold ToCArray.
  rewrite to_primitive_c_array_cases by by apply representable_fits_false.
  case_decide as Hd.
  - intros _. destruct Hd as [[_ ->]%total_bytes_0|]; auto.
  - by destruct (std_data k c).
Qed.

(** C18 (frame): on a well-formed heap, a conversion to a flat array that
    returns, whatever its arguments, leaves every block that was live with
    the same bytes, and leaves the heap well formed. *)
Theorem conversion_frame k p t h a h' :
  heap_wf h → to_primitive_c_array k p t h = Ok a h' →
  extends h h' ∧ heap_wf h'.
Proof.
  intros Hwf [[_ ->]|(c & cs & _ & _ & Hlen & Hav & ->)]%to_primitive_c_array_inv.
  - done.
  - split; [by apply extends_fresh_block|apply heap_wf_fresh_block; [done|lia]].
Qed.

(** C31 (reading does not write): whatever array it is given and whether it
    returns or leaves by an exception, [to_std_container] leaves the heap as
    it was: the source array and every other block are untouched. *)
Theorem to_std_container_readonly p h :
  match to_std_container p h with
  | Ok _ h' | Throw _ h' => h' = h
  | Undef => True
  end.
Proof.
  unfold to_std_container. destruct p as [a|]; [|by cbn]. case_decide; [by cbn|].
  pose proof (resize_heap (m_length a) h) as Hr. run_M.
  destruct (resize _ h) as [r h1|e h1|]; [subst h1|done..].
  destruct (memcpy_out _ _ h) as [bs h'|e h'|] eqn:Hbs; [|exfalso|done].
  - by apply memcpy_out_inv in Hbs as [-> _].
  - unfold memcpy_out, load_bytes in Hbs. revert Hbs. run_M.
    repeat (case_decide || case_match); done.
Qed.

(** C8 (what is read): from an array that holds the elements [c], at most
    [max_size()] of them, and when the managed side grants the storage of
    the copy, [to_std_container] returns exactly [c]: it reads [m_length]
    elements and nothing of what follows them in the block, such as a
    terminator. *)
Theorem to_std_container_reads_held a h c :
  holds a h c → representable c → granted c →
  to_std_container (Some a) h = Ok c h.
Proof.
  intros Hh Hrep Hg. destruct (decide (c = [])) as [->|Hne].
  - apply to_std_container_empty. right. by destruct Hh.
  - by apply to_std_container_holds.
Qed.

(** C19 (earlier arrays survive): on a well-formed heap, an array that
    holds the elements [c] still holds them after any later conversion to a
    flat array that returns: a conversion writes to its own block only. *)
Theorem holds_after_conversion k p t h a' h' (a : CArray T) c :
  heap_wf h → holds a h c → to_primitive_c_array k p t h = Ok a' h' →
  holds a h' c.
Proof.
  intros Hwf Hh [[_ ->]|(c' & cs & _ & _ & _ & _ & ->)]%to_primitive_c_array_inv;
    [done|].
  pose proof (extends_fresh_block cs h Hwf) as Hext. by rewrite Hext in Hh.
Qed.

(** C20 (independent copies): two conversions of the same container return
    two different blocks, and each array holds the elements of the container
    in the final heap: no storage is shared between the copies. *)
Theorem copies_independent k c h :
  heap_wf h → c ≠ [] → representable c → 2 * total_bytes false c ≤ avail h →
  ∃ a1 a2 h',
    (a1 ← ToCArray k c; a2 ← ToCArray k c; mret (a1, a2)) h = Ok (a1, a2) h' ∧
    m_block a1 ≠ m_block a2 ∧ holds a1 h' c ∧ holds a2 h' c.
Proof.
  intros Hwf Hne Hrep Hav. pose proof (total_bytes_pos c Hne) as Hpos.
  pose proof (length_image false c) as Hlen.
  set (h1 := fresh_block (image false c) h).
  assert (Hwf1 : heap_wf h1) by (apply heap_wf_fresh_block; [done|lia]).
  assert (Hav1 : total_bytes false c ≤ avail h1) by (unfold h1, fresh_block; simpl; lia).
  pose proof (fresh_block_holds false c h) as Hh1. fold h1 in Hh1.
  rewrite (extends_fresh_block (image false c) h1 Hwf1) in Hh1.
  eexists _, _, _. split_and!; [|..|apply Hh1|apply (fresh_block_holds false c h1)].
  - rewrite (bind_Ok _ _ _ _ _ (ToCArray_Ok k c h Hne Hrep ltac:(lia))).
    by rewrite (bind_Ok _ _ _ _ _ (ToCArray_Ok k c h1 Hne Hrep Hav1)).
  - simpl. intros [= ?]. lia.
Qed.

(** C21 (the invariant of a flat array): the array that a conversion of a
    container returns is well typed: its length is a [size_t], a null block
    comes with length [0], and a block that is not null is live and has
    exactly [sizeof(T)] bytes for each of the [m_length] elements, and for
    one more element when a terminator was asked for. *)
Theorem conversion_valid k c t h a h' :
  representable c → (t = true → sizeof T ≤ nuint_modulus / 2) →
  to_primitive_c_array k (Some c) t h = Ok a h' →
  valid a h' ∧ is_nuint (m_length a) ∧
  (m_block a = Null → m_length a = 0) ∧
  (m_block a ≠ Null →
   ∃ cs, block_of a h' = Some cs ∧
         Z.of_nat (length cs) = sizeof T * (m_length a + (if t then 1 else 0))).
Proof.
  intros Hrep Ht.
  assert (Hfit : fits t c).
  { destruct t; [by apply representable_fits; auto|by apply representable_fits_false]. }
  rewrite to_primitive_c_array_cases by done.
  case_decide.
  { intros [= <- <-]. split_and!; [apply valid_default| |done..].
    split; [done|apply nuint_modulus_pos]. }
  destruct (std_data k c); [|done]. intros [= <- <-]. split_and!; [| |done|].
  - eapply holds_valid, fresh_block_holds.
  - by apply representable_is_nuint.
  - intros _. exists (image t c). unfold block_of. cbn [m_block m_length].
    rewrite blocks_fresh_block_same, length_image. split; [done|].
    unfold total_bytes. by destruct t.
Qed.

(** C32 (null and empty inputs): a null container pointer gives the empty
    array, a null array pointer gives the empty container, and so does an
    array whose block is null or whose length is zero; none of them touches
    the heap or dereferences the pointer. *)
Theorem null_inputs_safe k t n p h :
  to_primitive_c_array k None t h = Ok default_CArray h ∧
  to_std_container None h = Ok [] h ∧
  to_std_container (Some {| m_block := Null; m_length := n |}) h = Ok [] h ∧
  to_std_container (Some {| m_block := p; m_length := 0 |}) h = Ok [] h.
Proof. split_and!; [done..| |]; apply to_std_container_empty; simpl; auto. Qed.

(** C36 (wrap-around breaks the invariant): when the byte count of the
    elements does not fit [size_t], an array that [ToCArray] returns with a
    block claims more elements than the block holds. *)
Theorem ToCArray_wraps k c h a h' :
  is_nuint (Z.of_nat (length c)) → ¬ fits false c →
  ToCArray k c h = Ok a h' → a ≠ default_CArray → ¬ valid a h'.
Proof.
  intros Hlen Hfit Hrun Hne [_ Hv]. unfold ToCArray in Hrun.
  apply to_primitive_c_array_inv in Hrun
    as [[-> _]|(c' & cs & [= <-] & -> & Hcs & _ & ->)]; [done|].
  unfold block_of in Hv. cbn [m_block m_length] in Hv.
  rewrite blocks_fresh_block_same in Hv. unfold alloc_size, std_size in *.
  rewrite (nuint_small _ Hlen) in *. unfold fits, total_bytes in Hfit.
  rewrite Z.add_0_r in Hfit. pose proof sizeof_pos.
  pose proof (nuint_is_nuint (sizeof T * Z.of_nat (length c))) as [_ Hlt].
  fold (nuint_mul (sizeof T) (Z.of_nat (length c))) in Hlt.
  destruct (decide (0 < Z.of_nat (length c))); [|nia]. specialize (Hv ltac:(done)). lia.
Qed.

End container_theorems.

(** ** Witnesses: the theorems at concrete inputs, on a 64-bit platform *)
Section witnesses.
#[local] Existing Instance arch64.
#[local] Existing Instance plenty.

Lemma string_roundtrip_witness :
  (a ← ToCNIString [x61; x62]; ToCppString a) (empty_heap 16) =
  Ok [x61; x62] (fresh_block [Some x61; Some x62; Some x00] (empty_heap 16)).
Proof. apply (string_roundtrip); by vm_compute. Defined.

Lemma ToCNIString_terminated_witness :
  ToCNIString [x61; x62] (empty_heap 16) =
  Ok {| m_block := Ptr 1 0; m_length := 2 |}
     (fresh_block [Some x61; Some x62; Some x00] (empty_heap 16)).
Proof. apply (ToCNIString_terminated); by vm_compute. Defined.

(** Two 16-bit elements, [0x0102] and [0x0304], in a block of four bytes. *)
Lemma container_roundtrip_witness :
  (a ← ToCArray (T := uint16_t) std_vector [uint_of_Z 2 258; uint_of_Z 2 772];
   to_std_container (Some a)) (empty_heap 16) =
  Ok [uint_of_Z 2 258; uint_of_Z 2 772]
     (fresh_block [Some x02; Some x01; Some x04; Some x03] (empty_heap 16)).
Proof.
  etrans; [apply (container_roundtrip std_vector [uint_of_Z 2 258; uint_of_Z 2 772]);
           by vm_compute|].
  reflexivity.
Defined.

Lemma ToCArray_exhausted_witness :
  ToCArray std_vector [x01; x02; x03] (empty_heap 2) =
  Ok default_CArray (empty_heap 2).
Proof. apply (ToCArray_exhausted); by vm_compute. Defined.

Lemma ToCArray_copies_witness :
  ToCArray (T := uint16_t) std_vector [uint_of_Z 2 258; uint_of_Z 2 772] (empty_heap 16) =
  Ok {| m_block := Ptr 1 0; m_length := 2 |}
     (fresh_block [Some x02; Some x01; Some x04; Some x03] (empty_heap 16)).
Proof.
  etrans; [apply (ToCArray_copies std_vector [uint_of_Z 2 258; uint_of_Z 2 772]);
           [done|by vm_compute..]|].
  reflexivity.
Defined.

Lemma ToCNIString_refines_witness :
  ∃ a h', ToCNIString [x61; x62] (empty_heap 16) = Ok a h' ∧
          converts true [x61; x62] (empty_heap 16) a h'.
Proof. apply ToCNIString_refines; [apply heap_wf_empty|]; by vm_compute. Defined.

Lemma ToCNIString_exhausted_witness :
  ToCNIString [x61; x62] (empty_heap 2) = Ok default_CArray (empty_heap 2).
Proof. apply ToCNIString_exhausted; by vm_compute. Defined.

Lemma ToCNIString_release_witness :
  (a ← ToCNIString [x61; x62]; Free (m_block a)) (empty_heap 16) =
  Ok () (Heap ∅ 2 16).
Proof.
  refine (ToCNIString_release [x61; x62] (empty_heap 16) _ _ _);
    [apply heap_wf_empty|..]; by vm_compute.
Defined.

Lemma use_after_free_undefined_witness :
  (a ← ToCNIString [x61; x62]; Free (m_block a);; ToCppString a) (empty_heap 16) =
  Undef.
Proof. apply use_after_free_undefined; by vm_compute. Defined.

Lemma ToCNIString_empty_witness :
  ToCNIString [] (empty_heap 16) =
  Ok {| m_block := Ptr 1 0; m_length := 0 |} (fresh_block [Some x00] (empty_heap 16)).
Proof. apply (ToCNIString_empty (empty_heap 16)). by vm_compute. Defined.

(** A forged length, and a managed side that supplies at most two bytes. *)
Lemma ToCppString_throws_witness :
  ToCppString (managed := limited 2) {| m_block := Ptr 1 0; m_length := 2 ^ 63 |}
    (empty_heap 16) = Throw length_error (empty_heap 16) ∧
  ToCppString (managed := limited 2) {| m_block := Ptr 1 0; m_length := 3 |}
    (fresh_block [Some x61; Some x62; Some x63] (empty_heap 16)) =
  Throw bad_alloc (fresh_block [Some x61; Some x62; Some x63] (empty_heap 16)).
Proof.
  split.
  - refine (proj1 (ToCppString_throws (managed := limited 2)
                     {| m_block := Ptr 1 0; m_length := 2 ^ 63 |} (empty_heap 16) _ _) _);
      by vm_compute.
  - refine (proj2 (ToCppString_throws (managed := limited 2)
                     {| m_block := Ptr 1 0; m_length := 3 |}
                     (fresh_block [Some x61; Some x62; Some x63] (empty_heap 16)) _ _) _ _);
      by vm_compute.
Defined.

Lemma ToCArray_refines_witness :
  ∃ a h', ToCArray (T := uint16_t) std_vector [uint_of_Z 2 258; uint_of_Z 2 772]
            (empty_heap 16) = Ok a h' ∧
          converts false [uint_of_Z 2 258; uint_of_Z 2 772] (empty_heap 16) a h'.
Proof. apply ToCArray_refines; [apply heap_wf_empty|]; by vm_compute. Defined.

Lemma ToCArray_empty_only_if_witness :
  [x01; x02; x03] = [] ∨ avail (empty_heap 2) < total_bytes false [x01; x02; x03].
Proof.
  apply (ToCArray_empty_only_if std_vector [x01; x02; x03] (empty_heap 2) (empty_heap 2));
    by vm_compute.
Defined.

Lemma conversion_frame_witness :
  extends (fresh_block [Some x07] (empty_heap 16))
          (fresh_block [Some x61; Some x00] (fresh_block [Some x07] (empty_heap 16))) ∧
  heap_wf (fresh_block [Some x61; Some x00] (fresh_block [Some x07] (empty_heap 16))).
Proof.
  refine (conversion_frame std_string (Some [x61]) true
            (fresh_block [Some x07] (empty_heap 16))
            {| m_block := Ptr 2 0; m_length := 1 |} _ _ _);
    [apply heap_wf_fresh_block; [apply heap_wf_empty|]|]; by vm_compute.
Defined.

Lemma to_std_container_reads_held_witness :
  to_std_container (Some {| m_block := Ptr 1 0; m_length := 1 |})
    (fresh_block [Some x61; Some x00; None] (empty_heap 16)) =
  Ok [x61] (fresh_block [Some x61; Some x00; None] (empty_heap 16)).
Proof.
  apply to_std_container_reads_held; [|by vm_compute..].
  split; [done|]. by exists [Some x61; Some x00; None].
Defined.

Lemma holds_after_conversion_witness :
  holds (T := byte) {| m_block := Ptr 1 0; m_length := 1 |}
    (fresh_block [Some x61; Some x00] (fresh_block [Some x07] (empty_heap 16))) [x07].
Proof.
  refine (holds_after_conversion std_string (Some [x61]) true
            (fresh_block [Some x07] (empty_heap 16))
            {| m_block := Ptr 2 0; m_length := 1 |} _
            {| m_block := Ptr 1 0; m_length := 1 |} [x07] _ _ _);
    [apply heap_wf_fresh_block; [apply heap_wf_empty|]; by vm_compute| |by vm_compute].
  split; [done|]. by exists [Some x07].
Defined.

Lemma copies_independent_witness :
  ∃ a1 a2 h',
    (a1 ← ToCArray std_vector [x01; x02]; a2 ← ToCArray std_vector [x01; x02];
     mret (a1, a2)) (empty_heap 16) = Ok (a1, a2) h' ∧
    m_block a1 ≠ m_block a2 ∧ holds a1 h' [x01; x02] ∧ holds a2 h' [x01; x02].
Proof.
  apply (copies_independent std_vector [x01; x02] (empty_heap 16));
    [apply heap_wf_empty|..]; by vm_compute.
Defined.

Lemma conversion_valid_witness :
  valid (T := byte) {| m_block := Ptr 1 0; m_length := 2 |}
        (fresh_block [Some x61; Some x62; Some x00] (empty_heap 16)) ∧
  is_nuint 2 ∧ (Ptr 1 0 = Null → 2 = 0) ∧
  (Ptr 1 0 ≠ Null →
   ∃ cs, block_of (T := byte) {| m_block := Ptr 1 0; m_length := 2 |}
           (fresh_block [Some x61; Some x62; Some x00] (empty_heap 16)) = Some cs ∧
         Z.of_nat (length cs) = 1 * (2 + 1)).
Proof.
  refine (conversion_valid std_string [x61; x62] true (empty_heap 16)
            {| m_block := Ptr 1 0; m_length := 2 |} _ _ _ _); by vm_compute.
Defined.

(** On a platform with a 16-bit [size_t], 32769 elements of two bytes need
    65538 bytes, which wraps to 2: the array claims 32769 elements and its
    block has room for one. *)
Lemma ToCArray_wraps_witness :
  ¬ valid (T := uint16_t) {| m_block := Ptr 1 0; m_length := 32769 |}
      (fresh_block [Some x01; Some x00] (empty_heap 16)).
Proof.
  refine (ToCArray_wraps (arch := arch16) std_vector
            (replicate (Z.to_nat 32769) (uint_of_Z 2 1)) (empty_heap 16) _ _ _ _ _ _);
    [by vm_compute|by vm_compute|reflexivity|done].
Defined.

End witnesses.

End CNIConvert.
