(* ===== verification/Session.v ===== *)
(** * Session: the caller's side of the boundary

    The specification gives the flat array a life cycle: a conversion
    creates it and hands its block to the caller, the caller reads it or
    converts it back, and exactly one call of [Free] destroys it.  This file
    states that protocol as a labelled transition system over the calls of
    the public interface, [CNIMemoryHelper] and [CNIConvert] together.

    A [session] is the heap and what the caller has been handed and has not
    released yet ([owned], ghost state: the program keeps no such table).  A
    [call] is one call of a public method with its arguments.  [step] has one
    rule per method: the obligation of the caller (it releases, reads and
    zeroes only what it owns), the run of the method on the heap, and the
    change of ownership.  [do_call] is the same as a function, and [run]
    executes a list of calls.

    The specification describes the boundary as a contract on ownership:
    a conversion or an allocation hands a block to the caller or returns
    nothing, a release takes the block back, and the caller is told nothing
    else.  [contract] is that description as a function on a [ledger], the
    blocks that the caller holds with what it put into them, the budget that
    is left and the next handle; it never looks at a byte of the heap.
    [ledger_of] reads the ledger off a session.  The program refines the
    contract: the reply of every call and the ledger that results are the
    ones that [contract] computes.

    The invariant [session_inv] says that the heap is well formed, that the
    live blocks are exactly the owned ones, each with the content that was
    put into it, and that the budget and the live bytes add up to what the
    process started with.  It holds in every reachable session; under it
    every call that the caller may make returns, without an exception and
    without undefined behaviour; and releasing what is owned, in any order,
    ends with an empty heap and the whole budget. *)

From Stdlib Require Import Strings.Byte.
From S2P Require Import Prelude Outcome Word Primitive Memory MemoryHelper CArray Container Convert.
#[local] Open Scope Z_scope.
Import CNIMemoryHelper CNIConvert.

Section session.
Context {arch : Arch} {managed : Managed} {T : Type} `{Primitive T}.

(** What the caller knows of a block that it owns: the container that a
    conversion copied into it, and whether a terminator follows, or the
    number of bytes that it asked [Allocate] for. *)
Inductive resource : Type :=
| Array (c : list T) (t : bool)
| Raw (n : Z).

Record session : Type := Session {
  store : heap;
  owned : gmap positive resource
}.

(** The calls of the public interface. *)
Inductive call : Type :=
| call_convert (k : container_kind) (c : list T) (t : bool)
| call_read (a : CArray T)
| call_free (p : ptr)
| call_allocate (n : Z)
| call_reallocate (p : ptr) (n : Z)
| call_zero (p : ptr) (count : Z).

(** What a call returns. *)
Inductive reply : Type :=
| Done
| Pointer (p : ptr)
| Flat (a : CArray T)
| Content (l : list T).

(** A session that has made no call. *)
Definition initial (budget : Z) : session := Session (empty_heap budget) ∅.

(** ** Ownership *)

(** The block of a pointer that a call returned now belongs to the caller;
    the null pointer gives nothing. *)
Definition grant (p : ptr) (r : resource) (o : gmap positive resource) :
    gmap positive resource :=
  match p with
  | Ptr b _ => <[b := r]> o
  | Null => o
  end.

(** The block of a pointer that was released is the caller's no more. *)
Definition revoke (p : ptr) (o : gmap positive resource) : gmap positive resource :=
  match p with
  | Ptr b _ => delete b o
  | Null => o
  end.

(** ** The obligations of the caller *)

(** A container can be converted when it exists, that is when it has at
    most [max_size()] elements; a terminator needs [data()] not to be null
    and room for one more element. *)
Definition convertible (k : container_kind) (c : list T) (t : bool) : Prop :=
  representable c ∧
  (t = true → is_Some (std_data k c) ∧ sizeof T ≤ nuint_modulus / 2).

(** An array can be converted back when it is empty or is one that a
    conversion returned and that has not been released, and the managed side
    has room for the copy. *)
Definition readable (a : CArray T) (o : gmap positive resource) : Prop :=
  match m_block a with
  | Null => True
  | Ptr b ofs =>
    ofs = 0 ∧
    match o !! b with
    | Some (Array c _) => m_length a = Z.of_nat (length c) ∧ granted c
    | _ => False
    end
  end.

(** A pointer can be released when it is null or the start of a block that
    the caller owns. *)
Definition releasable (p : ptr) (o : gmap positive resource) : Prop :=
  match p with
  | Null => True
  | Ptr b ofs => ofs = 0 ∧ is_Some (o !! b)
  end.

(** [count] elements can be zeroed at a pointer that is null or the start of
    a block of raw bytes with room for them. *)
Definition zeroable (p : ptr) (count : Z) (o : gmap positive resource) : Prop :=
  match p with
  | Null => True
  | Ptr b ofs =>
    ofs = 0 ∧
    match o !! b with
    | Some (Raw n) => 0 ≤ count ∧ sizeof T * count ≤ n
    | _ => False
    end
  end.

Definition enabled (c : call) (s : session) : Prop :=
  match c with
  | call_convert k c t => convertible k c t
  | call_read a => readable a (owned s)
  | call_free p => releasable p (owned s)
  | call_allocate n => is_nuint n
  | call_reallocate p n => releasable p (owned s) ∧ is_nuint n
  | call_zero p count => zeroable p count (owned s)
  end.

#[export] Instance convertible_dec k c t : Decision (convertible k c t).
Proof. unfold convertible. apply _. Defined.

#[export] Instance readable_dec a o : Decision (readable a o).
Proof.
  unfold readable. destruct (m_block a); [apply _|].
  destruct (o !! _) as [[]|]; apply _.
Defined.

#[export] Instance releasable_dec p o : Decision (releasable p o).
Proof. unfold releasable. destruct p; apply _. Defined.

#[export] Instance zeroable_dec p count o : Decision (zeroable p count o).
Proof.
  unfold zeroable. destruct p; [apply _|].
  destruct (o !! _) as [[]|]; apply _.
Defined.

#[export] Instance enabled_dec c s : Decision (enabled c s).
Proof. destruct c; apply _. Defined.

(** ** The transition system *)

(** One rule per public method: the obligation, the run of the method on
    the heap of the session, and what the caller owns afterwards. *)
Inductive step (s : session) : call → reply → session → Prop :=
| step_convert k c t a h' :
    convertible k c t →
    to_primitive_c_array k (Some c) t (store s) = Ok a h' →
    step s (call_convert k c t) (Flat a)
         (Session h' (grant (m_block a) (Array c t) (owned s)))
| step_read a l h' :
    readable a (owned s) →
    to_std_container (Some a) (store s) = Ok l h' →
    step s (call_read a) (Content l) (Session h' (owned s))
| step_free p h' :
    releasable p (owned s) →
    Free p (store s) = Ok () h' →
    step s (call_free p) Done (Session h' (revoke p (owned s)))
| step_allocate n p h' :
    is_nuint n →
    Allocate n (store s) = Ok p h' →
    step s (call_allocate n) (Pointer p)
         (Session h' (grant p (Raw n) (owned s)))
| step_reallocate p n q h' :
    releasable p (owned s) → is_nuint n →
    Reallocate p n (store s) = Ok q h' →
    step s (call_reallocate p n) (Pointer q)
         (Session h' (grant q (Raw n) (revoke p (owned s))))
| step_zero p count h' :
    zeroable p count (owned s) →
    ZeroMemory T p count (store s) = Ok () h' →
    step s (call_zero p count) Done (Session h' (owned s)).

(** The sessions that a caller who keeps its obligations can be in. *)
Inductive reachable (budget : Z) : session → Prop :=
| reachable_initial : 0 ≤ budget → reachable budget (initial budget)
| reachable_step s c r s' :
    reachable budget s → step s c r s' → reachable budget s'.

(** ** The same, as a function *)

(** A method of the program runs on the heap of the session. *)
Definition lift {A} (m : M heap A) : M session A := λ s,
  match m (store s) with
  | Ok a h => Ok a (Session h (owned s))
  | Throw e h => Throw e (Session h (owned s))
  | Undef => Undef
  end.

Definition ghost (f : gmap positive resource → gmap positive resource) :
    M session () :=
  λ s, Ok () (Session (store s) (f (owned s))).

Definition do_call (c : call) : M session reply :=
  match c with
  | call_convert k c t =>
    a ← lift (to_primitive_c_array k (Some c) t);
    ghost (grant (m_block a) (Array c t));; mret (Flat a)
  | call_read a => l ← lift (to_std_container (Some a)); mret (Content l)
  | call_free p => lift (Free p);; ghost (revoke p);; mret Done
  | call_allocate n =>
    p ← lift (Allocate n); ghost (grant p (Raw n));; mret (Pointer p)
  | call_reallocate p n =>
    q ← lift (Reallocate p n);
    ghost (λ o, grant q (Raw n) (revoke p o));; mret (Pointer q)
  | call_zero p count => lift (ZeroMemory T p count);; mret Done
  end.

(** A list of calls, each made only if the caller may make it. *)
Fixpoint run (cs : list call) : M session () :=
  match cs with
  | [] => mret ()
  | c :: cs =>
    λ s, if decide (enabled c s) then (do_call c;; run cs) s else Undef
  end.

(** The calls that release everything the caller owns. *)
Definition release_all (s : session) : list call :=
  (λ b, call_free (Ptr b 0)) <$> elements (dom (owned s)).

(** ** The contract of the boundary *)

(** What the caller can keep track of without access to the heap: the
    blocks that it holds and what each was made for, the bytes that the
    process may still allocate, and the handle that the next block gets. *)
Record ledger : Type := Ledger {
  held : gmap positive resource;
  funds : Z;
  next_handle : positive
}.

(** The bytes that a resource occupies: the elements of the container and
    its terminator, or the bytes asked for. *)
Definition cost (r : resource) : Z :=
  match r with
  | Array c t => total_bytes t c
  | Raw n => n
  end.

(** A block is asked for: nothing is handed out when no byte is needed or
    when the funds do not cover the cost. *)
Definition acquire (r : resource) (l : ledger) : ptr * ledger :=
  if decide (cost r = 0 ∨ funds l < cost r) then (Null, l)
  else (Ptr (next_handle l) 0,
        Ledger (<[next_handle l := r]> (held l)) (funds l - cost r)
               (Pos.succ (next_handle l))).

(** A block is given back, and its bytes with it. *)
Definition release (p : ptr) (l : ledger) : ledger :=
  match p with
  | Null => l
  | Ptr b _ =>
    match held l !! b with
    | Some r => Ledger (delete b (held l)) (funds l + cost r) (next_handle l)
    | None => l
    end
  end.

(** The flat array of a container [c] whose copy is in the block at [p]:
    the empty array when there is no block. *)
Definition flat_of (p : ptr) (c : list T) : CArray T :=
  if decide (p = Null) then default_CArray
  else {| m_block := p; m_length := Z.of_nat (length c) |}.

(** The container that the holder of the blocks [o] was promised to read
    through [a]. *)
Definition content_of (a : CArray T) (o : gmap positive resource) : list T :=
  match m_block a with
  | Null => []
  | Ptr b _ =>
    match o !! b with
    | Some (Array c _) => c
    | _ => []
    end
  end.

(** The reply of each call and the ledger after it. *)
Definition contract (c : call) (l : ledger) : reply * ledger :=
  match c with
  | call_convert k c t =>
    let (p, l') := acquire (Array c t) l in (Flat (flat_of p c), l')
  | call_read a => (Content (content_of a (held l)), l)
  | call_free p => (Done, release p l)
  | call_allocate n => let (p, l') := acquire (Raw n) l in (Pointer p, l')
  | call_reallocate p n =>
    let (q, l') := acquire (Raw n) (release p l) in (Pointer q, l')
  | call_zero p count => (Done, l)
  end.

(** The ledger of a session. *)
Definition ledger_of (s : session) : ledger :=
  Ledger (owned s) (avail (store s)) (next_block (store s)).

(** ** The invariant *)

(** The cells of a block agree with what the caller knows of it. *)
Definition backs (cs : list cell) (r : resource) : Prop :=
  match r with
  | Array c t => cs = image t c ∧ representable c
  | Raw n => Z.of_nat (length cs) = n ∧ is_nuint n
  end.

Record session_inv (budget : Z) (s : session) : Prop := {
  inv_wf : heap_wf (store s);
  inv_budget : conserves budget (store s);
  inv_backs : map_Forall2 (λ _, backs) (blocks (store s)) (owned s)
}.

End session.

Arguments session T : clear implicits.
Arguments call T : clear implicits.
Arguments reply T : clear implicits.
Arguments resource T : clear implicits.
Arguments ledger T : clear implicits.

Section session_lemmas.
Context {arch : Arch} {managed : Managed} {T : Type} `{Primitive T}.
Implicit Types (s : session T) (o : gmap positive (resource T)) (h : heap).
Implicit Types (c : list T) (a : CArray T) (r : resource T).

Lemma session_eta s : Session (store s) (owned s) = s.
Proof. by destruct s. Qed.

(** ** Running a call *)

Lemma lift_Ok {A} (m : M heap A) s x h' :
  m (store s) = Ok x h' → lift m s = Ok x (Session h' (owned s)).
Proof. unfold lift. by intros ->. Qed.

Lemma lift_Ok_inv {A} (m : M heap A) s x s' :
  lift m s = Ok x s' → m (store s) = Ok x (store s') ∧ owned s' = owned s.
Proof. unfold lift. destruct (m (store s)); [|done..]. by intros [= <- <-]. Qed.

(** ** The invariant under the three changes that a heap undergoes *)

Lemma inv_initial budget : 0 ≤ budget → session_inv budget (initial budget).
Proof.
  intros. split; simpl; [auto with cni..|]. apply map_Forall2_empty.
Qed.

(** A block that the caller owns is live, with the content it expects. *)
Lemma inv_owned budget s b r :
  session_inv budget s → owned s !! b = Some r →
  ∃ cs, blocks (store s) !! b = Some cs ∧ backs cs r.
Proof. intros [_ _ Hb] Ho. exact (map_Forall2_lookup_r _ _ _ _ _ Hb Ho). Qed.

Lemma inv_grant budget s cs r :
  session_inv budget s → Z.of_nat (length cs) ≤ avail (store s) → backs cs r →
  session_inv budget
    (Session (fresh_block cs (store s)) (<[next_block (store s) := r]> (owned s))).
Proof.
  intros [Hwf Hc Hb] Hav Hr. split; simpl; [auto with cni..|].
  by apply map_Forall2_insert_2.
Qed.

Lemma inv_revoke budget s b cs :
  session_inv budget s → blocks (store s) !! b = Some cs →
  session_inv budget
    (Session (remove_block b (Z.of_nat (length cs)) (store s)) (delete b (owned s))).
Proof.
  intros [Hwf Hc Hb] Hcs. split; simpl; [apply heap_wf_remove_block; [done|lia]|auto with cni|].
  by apply map_Forall2_delete.
Qed.

Lemma inv_rewrite budget s b cs cs' r :
  session_inv budget s → blocks (store s) !! b = Some cs → owned s !! b = Some r →
  length cs' = length cs → backs cs' r →
  session_inv budget (Session (set_block b cs' (store s)) (owned s)).
Proof.
  intros [Hwf Hc Hb] Hcs Hr Hlen Hbacks. split; simpl; [eauto with cni..|].
  by eapply map_Forall2_replace_l.
Qed.

(** ** The ledger of a session after a block is added or removed *)

Lemma backs_cost cs r : backs cs r → Z.of_nat (length cs) = cost r.
Proof. destruct r; intros [Hcs _]; [subst cs; apply length_image|done]. Qed.

Lemma acquire_null r s :
  cost r = 0 ∨ avail (store s) < cost r → acquire r (ledger_of s) = (Null, ledger_of s).
Proof. intros. unfold acquire. by rewrite decide_True. Qed.

Lemma acquire_fresh r (cs : list cell) s :
  Z.of_nat (length cs) = cost r → ¬ (cost r = 0 ∨ avail (store s) < cost r) →
  acquire r (ledger_of s) =
  (Ptr (next_block (store s)) 0,
   ledger_of (Session (fresh_block cs (store s)) (<[next_block (store s) := r]> (owned s)))).
Proof.
  intros Hlen ?. unfold acquire. rewrite decide_False by done.
  unfold ledger_of. simpl. by rewrite Hlen.
Qed.

Lemma release_owned s b (cs : list cell) r :
  owned s !! b = Some r → Z.of_nat (length cs) = cost r →
  ledger_of (Session (remove_block b (Z.of_nat (length cs)) (store s)) (delete b (owned s))) =
  release (Ptr b 0) (ledger_of s).
Proof. intros Ho Hlen. unfold release, ledger_of. simpl. by rewrite Ho, Hlen. Qed.

(** ** Each method, from a session that satisfies the invariant: it
    returns, the invariant holds again, and the ledger has changed as the
    contract says *)

Lemma convertible_fits k c t : convertible k c t → fits t c.
Proof.
  intros [Hrep Ht]. destruct t; [|by apply representable_fits_false].
  apply representable_fits; [done|]. by apply Ht.
Qed.

(** A container that has bytes to copy has storage to copy them from. *)
Lemma convertible_data k c t :
  convertible k c t → total_bytes t c ≠ 0 → is_Some (std_data k c).
Proof.
  intros [_ Ht] Hne. destruct t; [by apply Ht|].
  destruct (std_data k c) eqn:Hsrc; [done|]. apply std_data_None in Hsrc as ->.
  destruct Hne. by apply total_bytes_0.
Qed.

Lemma convert_sound budget s k c t :
  session_inv budget s → convertible k c t →
  ∃ a h', to_primitive_c_array k (Some c) t (store s) = Ok a h' ∧
          session_inv budget (Session h' (grant (m_block a) (Array c t) (owned s))) ∧
          a = flat_of (m_block a) c ∧
          acquire (Array c t) (ledger_of s) =
          (m_block a, ledger_of (Session h' (grant (m_block a) (Array c t) (owned s)))).
Proof.
  intros Hinv Hconv. rewrite to_primitive_c_array_cases by by eapply convertible_fits.
  case_decide as Hd.
  { exists default_CArray, (store s). simpl. rewrite session_eta.
    split_and!; [done..|by apply acquire_null]. }
  destruct (convertible_data _ _ _ Hconv) as [src ->]; [tauto|].
  eexists _, _. split_and!; [done| |done|].
  - apply inv_grant; [done|rewrite length_image; lia|]. split; [done|apply Hconv].
  - apply acquire_fresh; [apply length_image|done].
Qed.

(** An owned array holds the container that was converted into it. *)
Lemma backs_holds a h b c t :
  m_block a = Ptr b 0 → m_length a = Z.of_nat (length c) →
  blocks h !! b = Some (image t c) → holds a h c.
Proof.
  intros Hb Hl Hcs. split; [done|]. exists (image t c). split.
  - unfold block_of. by rewrite Hb.
  - unfold image. rewrite take_app_length'; [done|len].
Qed.

Lemma read_sound budget s a :
  session_inv budget s → readable a (owned s) →
  to_std_container (Some a) (store s) = Ok (content_of a (owned s)) (store s).
Proof.
  intros Hinv Hr. unfold readable, content_of in *.
  destruct (m_block a) as [|b ofs] eqn:Hb; [apply to_std_container_empty; by left|].
  destruct Hr as [-> Hr]. destruct (owned s !! b) as [[c t|]|] eqn:Ho; try done.
  destruct Hr as [Hr Hg].
  destruct (inv_owned _ _ _ _ Hinv Ho) as (cs & Hcs & -> & Hrep).
  destruct (decide (c = [])) as [->|Hne].
  - apply to_std_container_empty. by right.
  - apply to_std_container_holds; [by eapply backs_holds|done..].
Qed.

Lemma Free_sound budget s p :
  session_inv budget s → releasable p (owned s) →
  ∃ h', Free p (store s) = Ok () h' ∧
        session_inv budget (Session h' (revoke p (owned s))) ∧
        ledger_of (Session h' (revoke p (owned s))) = release p (ledger_of s).
Proof.
  intros Hinv Hrel. destruct p as [|b ofs].
  { exists (store s). simpl. rewrite session_eta. split_and!; [apply Free_Null|done..]. }
  destruct Hrel as [-> [r Hr]].
  destruct (inv_owned _ _ _ _ Hinv Hr) as (cs & Hcs & Hbacks).
  eexists. split_and!; [by apply Free_live|by apply inv_revoke|].
  eapply release_owned; [done|by apply backs_cost].
Qed.

Lemma Allocate_sound budget s n :
  session_inv budget s → is_nuint n →
  ∃ p h', Allocate n (store s) = Ok p h' ∧
          session_inv budget (Session h' (grant p (Raw n) (owned s))) ∧
          acquire (Raw n) (ledger_of s) =
          (p, ledger_of (Session h' (grant p (Raw n) (owned s)))).
Proof.
  intros Hinv [Hn Hlt]. destruct (decide (n = 0 ∨ avail (store s) < n)) as [Hd|Hd].
  - exists Null, (store s). simpl. rewrite session_eta.
    split_and!; [|done|by apply acquire_null].
    destruct Hd as [->|]; [apply Allocate_0|by apply Allocate_exhausted].
  - eexists _, _. rewrite Allocate_Ok, add_block_fresh_block by lia.
    split_and!; [done| |apply acquire_fresh; [len|done]].
    apply inv_grant; [done|len|]. split; [len|done].
Qed.

Lemma Reallocate_sound budget s p n :
  session_inv budget s → releasable p (owned s) → is_nuint n →
  ∃ q h', Reallocate p n (store s) = Ok q h' ∧
          session_inv budget (Session h' (grant q (Raw n) (revoke p (owned s)))) ∧
          acquire (Raw n) (release p (ledger_of s)) =
          (q, ledger_of (Session h' (grant q (Raw n) (revoke p (owned s))))).
Proof.
  intros Hinv Hrel Hn.
  destruct (Free_sound _ _ _ Hinv Hrel) as (h1 & Hfree & Hinv1 & <-).
  unfold Reallocate. rewrite (bind_Ok _ _ _ _ _ Hfree). case_decide.
  - eexists _, _. split_and!; [done..|]. apply acquire_null. by left.
  - apply (Allocate_sound _ _ _ Hinv1 Hn).
Qed.

Lemma ZeroMemory_sound budget s p count :
  session_inv budget s → zeroable p count (owned s) →
  ∃ h', ZeroMemory T p count (store s) = Ok () h' ∧
        session_inv budget (Session h' (owned s)) ∧
        ledger_of (Session h' (owned s)) = ledger_of s.
Proof.
  intros Hinv Hz. destruct p as [|b ofs].
  { exists (store s). rewrite session_eta. split_and!; [apply ZeroMemory_Null|done..]. }
  destruct Hz as [-> Hz]. destruct (owned s !! b) as [[|n]|] eqn:Ho; try done.
  destruct Hz as [Hc Hle]. pose proof sizeof_pos as Hpos.
  destruct (inv_owned _ _ _ _ Hinv Ho) as (cs & Hcs & Hlen & Hnu).
  assert (Hmul : nuint_mul (sizeof T) count = sizeof T * count)
    by (apply nuint_mul_nowrap; unfold is_nuint in *; nia).
  eexists. split.
  - apply (ZeroMemory_live T b 0 count cs); [done|].
    unfold in_bounds. rewrite Hmul. nia.
  - rewrite Hmul. split; [|done].
    eapply inv_rewrite; [done..| |split; [|done]]; rewrite length_splice; len.
Qed.

End session_lemmas.

Section session_run.
Context {arch : Arch} {managed : Managed} {T : Type} `{Primitive T}.
Implicit Types (s : session T) (c : call T) (r : reply T).

(** The end of each case of [do_call_sound]: the method has run. *)
#[local] Ltac after_run Hrun :=
  eexists _, _; rewrite (bind_Ok _ _ _ _ _ (lift_Ok _ _ _ _ Hrun));
  split_and!; [done|try done|cbn [contract]].

(** [do_call] from a session that satisfies the invariant. *)
Lemma do_call_sound budget s c :
  session_inv budget s → enabled c s →
  ∃ r s', do_call c s = Ok r s' ∧ session_inv budget s' ∧
          contract c (ledger_of s) = (r, ledger_of s').
Proof.
  intros Hinv Hen. destruct c as [k c t|a|p|n|p n|p count]; simpl in Hen; unfold do_call.
  - destruct (convert_sound _ _ _ _ _ Hinv Hen) as (a & h' & Hrun & Hinv' & Ha & Hl).
    after_run Hrun. by rewrite Hl, <- Ha.
  - pose proof (read_sound _ _ _ Hinv Hen) as Hrun.
    after_run Hrun; by rewrite session_eta.
  - destruct (Free_sound _ _ _ Hinv Hen) as (h' & Hrun & Hinv' & Hl).
    after_run Hrun. by rewrite <- Hl.
  - destruct (Allocate_sound _ _ _ Hinv Hen) as (p & h' & Hrun & Hinv' & Hl).
    after_run Hrun. by rewrite Hl.
  - destruct Hen as [Hrel Hn].
    destruct (Reallocate_sound _ _ _ _ Hinv Hrel Hn) as (q & h' & Hrun & Hinv' & Hl).
    after_run Hrun. by rewrite Hl.
  - destruct (ZeroMemory_sound _ _ _ _ Hinv Hen) as (h' & Hrun & Hinv' & Hl).
    after_run Hrun. by rewrite Hl.
Qed.

(** The rules of [step] and the function [do_call] describe the same
    transitions. *)
Lemma step_do_call s c r s' : step s c r s' → enabled c s ∧ do_call c s = Ok r s'.
Proof.
  destruct 1; (split; [done|]); unfold do_call;
    by erewrite bind_Ok by by apply lift_Ok.
Qed.

Lemma do_call_step s c r s' : enabled c s → do_call c s = Ok r s' → step s c r s'.
Proof.
  intros Hen. destruct c; simpl in Hen; unfold do_call;
    intros (x & [h1 o1] & [Hrun Ho]%lift_Ok_inv & [= <- <-])%bind_Ok_inv;
    simpl in *; subst o1; try destruct x; try destruct Hen; by constructor.
Qed.

Lemma step_inv budget s c r s' :
  session_inv budget s → step s c r s' → session_inv budget s'.
Proof.
  intros Hinv [Hen Hrun]%step_do_call.
  destruct (do_call_sound _ _ _ Hinv Hen) as (r' & s'' & Hrun' & Hinv' & _).
  rewrite Hrun in Hrun'. by injection Hrun' as <- <-.
Qed.

Lemma reachable_session_inv budget s : reachable budget s → session_inv budget s.
Proof. induction 1; eauto using inv_initial, step_inv. Qed.

Lemma run_cons c cs s :
  enabled c s → run (c :: cs) s = (do_call c;; run cs) s.
Proof. intros. simpl. by case_decide. Qed.

(** Releasing distinct owned blocks, one after the other. *)
Lemma run_frees budget bs s :
  session_inv budget s → NoDup bs → (∀ b, b ∈ bs → is_Some (owned s !! b)) →
  ∃ s', run ((λ b, call_free (Ptr b 0)) <$> bs) s = Ok () s' ∧
        session_inv budget s' ∧
        dom (owned s') = dom (owned s) ∖ list_to_set bs ∧
        next_block (store s') = next_block (store s).
Proof.
  revert s. induction bs as [|b bs IH]; intros s Hinv Hnd Hown.
  { exists s. split_and!; [done..| |done]. by rewrite list_to_set_nil, difference_empty_L. }
  apply NoDup_cons in Hnd as [Hb Hnd].
  destruct (Hown b) as [r Hr]; [by left|].
  destruct (inv_owned _ _ _ _ Hinv Hr) as (cs & Hcs & _).
  destruct (IH _ (inv_revoke _ _ _ _ Hinv Hcs) Hnd) as (s' & Hrun & Hinv' & Hdom & Hnext).
  { intros b' Hb'. simpl. rewrite lookup_delete_ne by by intros ->. apply Hown. by right. }
  exists s'. split_and!; [|done| |done].
  2: { simpl in Hdom. by rewrite Hdom, dom_delete_L, list_to_set_cons, difference_difference_l_L. }
  rewrite fmap_cons, run_cons by (simpl; eauto).
  erewrite bind_Ok; [done|]. unfold do_call.
  by rewrite (bind_Ok _ _ _ _ _ (lift_Ok _ _ _ _ (Free_live _ _ _ Hcs))).
Qed.

(** A list of calls that [run] executes leads to a reachable session. *)
Lemma run_reachable budget cs s s' :
  reachable budget s → run cs s = Ok () s' → reachable budget s'.
Proof.
  revert s. induction cs as [|c cs IH]; intros s Hreach; simpl; [by intros [= <-]|].
  case_decide as Hen; [|done]. intros (r & s1 & Hc & Hcs)%bind_Ok_inv.
  eauto using reachable_step, do_call_step.
Qed.

End session_run.

(** ** Theorems *)

Section session_theorems.
Context {arch : Arch} {managed : Managed} {T : Type} `{Primitive T}.
Implicit Types (s : session T) (c : call T) (r : reply T).

(** C13 (invariant of the protocol): in every session that a caller who
    keeps its obligations can reach, the heap is well formed, the budget
    that is left and the bytes of the live blocks add up to the budget the
    process started with, the live blocks are exactly the blocks that the
    caller owns, and each of them has the content that the caller was given:
    the image of the converted container, or the number of raw bytes asked
    for. *)
Theorem session_invariant budget s :
  reachable budget s →
  heap_wf (store s) ∧
  avail (store s) + live_bytes (store s) = budget ∧
  dom (blocks (store s)) = dom (owned s) ∧
  ∀ b (x : resource T), owned s !! b = Some x →
         ∃ cs, blocks (store s) !! b = Some cs ∧ backs cs x.
Proof.
  intros Hinv%reachable_session_inv. split_and!; [apply Hinv..| |].
  - eapply map_Forall2_dom_L, Hinv.
  - intros b x. by apply inv_owned with budget.
Qed.

(** C14 (no call of a well-behaved caller goes wrong): from a reachable
    session, every call that the caller is allowed to make returns: no
    exception leaves the library and no behaviour is undefined; the session
    that results is reachable again.  A conversion back is allowed only
    when the managed side grants the storage of the copy. *)
Theorem enabled_call_returns budget s c :
  reachable budget s → enabled c s →
  ∃ r s', do_call c s = Ok r s' ∧ step s c r s' ∧ reachable budget s'.
Proof.
  intros Hreach Hen.
  destruct (do_call_sound _ _ _ (reachable_session_inv _ _ Hreach) Hen)
    as (r & s' & Hrun & _).
  exists r, s'. split; [done|]. assert (step s c r s') by by apply do_call_step.
  eauto using reachable_step.
Qed.

(** C17 (the program refines the contract of the boundary): from a
    reachable session, every call that the caller is allowed to make returns
    the reply that the contract computes from the ledger alone, and the
    ledger of the session that results is the one the contract computes:
    which pointer comes back and when it is null, which container is read,
    which blocks the caller holds, what each release gives back and what
    each conversion or allocation costs. *)
Theorem do_call_refines_contract budget s c :
  reachable budget s → enabled c s →
  ∃ r s', do_call c s = Ok r s' ∧ contract c (ledger_of s) = (r, ledger_of s').
Proof.
  intros Hinv%reachable_session_inv Hen.
  destruct (do_call_sound _ _ _ Hinv Hen) as (r & s' & Hrun & _ & Hl).
  by exists r, s'.
Qed.

(** C16 (an array keeps its content until it is freed): in a reachable
    session, converting back an array that the caller owns returns the
    container that was converted into it, whatever calls were made in
    between, and changes nothing, provided the managed side has room for
    the copy. *)
Theorem owned_array_reads_back budget s b (l : list T) t :
  reachable budget s → owned s !! b = Some (Array l t) → granted l →
  do_call (call_read {| m_block := Ptr b 0; m_length := Z.of_nat (length l) |}) s =
  Ok (Content l) s.
Proof.
  intros Hinv%reachable_session_inv Ho Hg.
  pose proof (read_sound budget s {| m_block := Ptr b 0; m_length := Z.of_nat (length l) |}
                Hinv) as Hrun.
  unfold readable, content_of in Hrun. simpl in Hrun. rewrite Ho in Hrun.
  unfold do_call. by rewrite (bind_Ok _ _ _ _ _ (lift_Ok _ _ _ _ (Hrun ltac:(done)))),
    session_eta.
Qed.

(** C15 (everything can be released): from every reachable session, the
    calls of [Free] on the blocks that the caller owns all return, and leave
    a heap without any block and with the whole budget: nothing that a
    conversion or an allocation took is lost. *)
Theorem release_all_empties budget s :
  reachable budget s →
  run (release_all s) s =
  Ok () (Session (Heap ∅ (next_block (store s)) budget) ∅).
Proof.
  intros Hinv%reachable_session_inv.
  destruct (run_frees budget (elements (dom (owned s))) s) as
    ([[m nb av] o] & Hrun & [_ Hc Hb] & Hdom & Hnext);
    [done|apply NoDup_elements|by intros b ?%elem_of_elements%elem_of_dom|].
  unfold release_all. rewrite Hrun. simpl in *.
  rewrite list_to_set_elements_L, difference_diag_L in Hdom.
  apply dom_empty_inv_L in Hdom as ->. apply map_Forall2_empty_inv_r in Hb as ->.
  unfold conserves, live_bytes in Hc. simpl in Hc. rewrite bytes_of_empty in Hc.
  do 3 f_equal; [done|lia].
Qed.

(** C33 (what may be freed): in a reachable session, [Free] returns exactly
    on the pointers that the caller may release, the null pointer and the
    start of a block that it owns; on any other pointer (a block already
    released, the middle of a block, a block that was never allocated) its
    behaviour is undefined. *)
Theorem Free_defined_iff_owned budget s p :
  reachable budget s →
  (returns (Free p) (store s) ↔ releasable p (owned s)) ∧
  (¬ releasable p (owned s) → Free p (store s) = Undef).
Proof.
  intros Hinv%reachable_session_inv.
  assert (Hdef : returns (Free p) (store s) → releasable p (owned s)).
  { intros ([] & h' & Hrun). unfold Free in Hrun. case_decide; [|by subst].
    apply operator_delete_inv in Hrun as [[-> _]|(b & cs & -> & Hcs & _)]; [done|].
    split; [done|].
    destruct (map_Forall2_lookup_l _ _ _ _ _ (inv_backs _ _ Hinv) Hcs) as (r & -> & _).
    by eexists. }
  split; [split; [done|]|].
  - intros Hrel. destruct (Free_sound _ _ _ Hinv Hrel) as (h' & Hrun & _).
    by exists (), h'.
  - intros Hno. destruct (Free p (store s)) as [[] h'|e h'|] eqn:Hrun; [| |done].
    + destruct Hno. apply Hdef. by exists (), h'.
    + unfold Free, operator_delete in Hrun.
      repeat (case_decide || case_match); done.
Qed.

End session_theorems.

(** ** Witnesses: sessions on a 64-bit platform with a budget of 16 bytes *)
Section witnesses.
#[local] Existing Instance arch64.
#[local] Existing Instance plenty.

(** The session after [ToCNIString("ab")], [Allocate(4)] and [ToCArray] of
    a vector with the one byte [1]. *)
Definition busy : session byte :=
  Session
    (Heap (<[3%positive := [Some x01]]>
             (<[2%positive := [None; None; None; None]]>
                {[1%positive := [Some x61; Some x62; Some x00]]}))
          4 8)
    (<[3%positive := Array [x01] false]>
       (<[2%positive := Raw 4]> {[1%positive := Array [x61; x62] true]})).

Lemma busy_reachable : reachable 16 busy.
Proof.
  apply (run_reachable 16
           [call_convert std_string [x61; x62] true; call_allocate 4;
            call_convert std_vector [x01] false] (initial 16));
    [apply reachable_initial; lia|by vm_compute].
Defined.

Lemma session_invariant_witness :
  heap_wf (store busy) ∧
  avail (store busy) + live_bytes (store busy) = 16 ∧
  dom (blocks (store busy)) = dom (owned busy) ∧
  ∀ b (x : resource byte), owned busy !! b = Some x →
         ∃ cs, blocks (store busy) !! b = Some cs ∧ backs cs x.
Proof. exact (session_invariant 16 busy busy_reachable). Defined.

Lemma enabled_call_returns_witness :
  ∃ r s', do_call (call_reallocate (Ptr 2 0) 6) busy = Ok r s' ∧
          step busy (call_reallocate (Ptr 2 0) 6) r s' ∧ reachable 16 s'.
Proof.
  apply (enabled_call_returns 16 busy _ busy_reachable).
  apply (bool_decide_unpack _). by vm_compute.
Defined.

(** Six bytes in place of the four of block 2: the contract predicts the
    handle 4 and funds of 8 + 4 - 6 bytes. *)
Lemma do_call_refines_contract_witness :
  ∃ r s', do_call (call_reallocate (Ptr 2 0) 6) busy = Ok r s' ∧
          contract (call_reallocate (Ptr 2 0) 6) (ledger_of busy) = (r, ledger_of s').
Proof.
  apply (do_call_refines_contract 16 busy _ busy_reachable).
  apply (bool_decide_unpack _). by vm_compute.
Defined.

Lemma owned_array_reads_back_witness :
  do_call (call_read {| m_block := Ptr 1 0; m_length := 2 |}) busy =
  Ok (Content [x61; x62]) busy.
Proof.
  apply (owned_array_reads_back 16 busy 1 [x61; x62] true busy_reachable);
    by vm_compute.
Defined.

Lemma release_all_empties_witness :
  run (release_all busy) busy = Ok () (Session (Heap ∅ 4 16) ∅).
Proof. exact (release_all_empties 16 busy busy_reachable). Defined.

(** The middle of a block cannot be freed. *)
Lemma Free_defined_iff_owned_witness :
  (returns (Free (Ptr 1 1)) (store busy) ↔ releasable (Ptr 1 1) (owned busy)) ∧
  (¬ releasable (Ptr 1 1) (owned busy) → Free (Ptr 1 1) (store busy) = Undef).
Proof. exact (Free_defined_iff_owned 16 busy (Ptr 1 1) busy_reachable). Defined.

End witnesses.
